(** * A singly linked list over a heap of mutable nodes

    Shallow embedding of [src/LinkedList/index.ts].  The class keeps two
    references into a chain of [Node] objects ([head], [tail]) and a cached
    element count ([size]).  Nodes are mutable objects that are shared between
    [head], [tail] and the [next] fields, so the model keeps an explicit
    store of nodes (an arena indexed by addresses) and every method reads and
    writes that store the way the method body does. *)

From stdpp Require Import base list.
From Stdlib Require Import ZArith Lia.

Open Scope Z_scope.

Module DS.

(** ** Values of the element type

    The class is generic in [T]; three operations of the language are
    applied to elements: [!value] and [Array.isArray(value)] in the
    constructor, and [!==] in [search].  [array_items v] is [Some items]
    when [v] is an array, with the elements it holds: at run time the
    constructor cannot tell a single value that is an array from a sequence
    of values. *)
Class JSValue (T : Type) := {
  truthy : T -> bool;
  array_items : T -> option (list T);
  strict_eq : T -> T -> bool
}.

(** Integer-valued numbers: [0] is the only falsy one, none is an array,
    [===] is equality. *)
#[export] Instance JSValue_Z : JSValue Z := {
  truthy z := negb (z =? 0);
  array_items _ := None;
  strict_eq := Z.eqb
}.

(** ** References *)

Abbreviation addr := nat.

(** What a variable of type [Node<T> | null] can hold at run time.  [delete]
    removes a property, and reading a removed property gives [undefined]. *)
Inductive ref : Type :=
| Null
| Undefined
| Obj (a : addr).

Definition is_truthy (r : ref) : bool :=
  match r with Obj _ => true | _ => false end.

(** ** Errors *)

Inductive error : Type :=
| PopEmpty                    (* "Can't use pop! List is empty!" *)
| ShiftEmpty                  (* "Can't use shift! List is empty!" *)
| AddAfterNotExist (index : Z) (* "Element at index ${index} not exist! You can not add ..." *)
| RemoveAtNotExist (index : Z) (* "Element at index ${index} not exist!" *)
| AtNoItem (index : Z)        (* "Linked list have no item with index ${index}" *)
| TypeError.                  (* property access on null or undefined *)

Inductive result (A : Type) : Type :=
| Return (a : A)
| Throw (e : error).
Arguments Return {A} a.
Arguments Throw {A} e.

Definition bind {A B} (m : result A) (k : A -> result B) : result B :=
  match m with
  | Return a => k a
  | Throw e => Throw e
  end.

Notation "'let*' x ':=' m 'in' k" := (bind m (fun x => k))
  (at level 10, x name, m at level 100, k at level 200).

Definition threw {A} (m : result A) : bool :=
  match m with Throw _ => true | Return _ => false end.

Section Generic.
Context {T : Type} `{JSValue T}.

(** ** Nodes and the store *)

(** [value = None] stands for a removed (hence [undefined]) property. *)
Record Node : Type := mkNode {
  next : ref;
  value : option T
}.

Local Abbreviation Heap := (list Node).

(** Reading a field.  An address outside the store is an object without
    properties; reachable lists never hold one (see [closed_reachable]). *)
Definition get_next (h : Heap) (a : addr) : ref :=
  match h !! a with
  | Some n => next n
  | None => Undefined
  end.

Definition get_value (h : Heap) (a : addr) : option T :=
  match h !! a with
  | Some n => value n
  | None => None
  end.

(** [node.next = r] *)
Definition set_next (h : Heap) (a : addr) (r : ref) : Heap :=
  alter (fun n => mkNode r (value n)) a h.

(** An object literal [{ value, next }] gets the next free address. *)
Definition alloc (h : Heap) (n : Node) : Heap * addr :=
  (h ++ [n], length h).

(** [deleteNode]: [delete node.next; delete node.value]. *)
Definition deleteNode (h : Heap) (a : addr) : Heap :=
  <[a := mkNode Undefined None]> h.

(** ** The list object

    [head] can become [undefined] ([shift] copies [head.next], which is
    [undefined] on a node emptied by [deleteNode]).  [tail] is only ever
    assigned [null] or an object, so it is an optional address. *)

Record LinkedList : Type := mkList {
  heap : Heap;
  head : ref;
  tail : option addr;
  size : Z
}.

Definition empty : LinkedList := mkList [] Null None 0.

(** *** Private helpers *)

Definition addToEnd (l : LinkedList) (item : T) : LinkedList :=
  match tail l with
  | None =>
      let '(h, a) := alloc (heap l) (mkNode Null (Some item)) in
      mkList h (Obj a) (Some a) (size l + 1)
  | Some t =>
      let '(h, a) := alloc (heap l) (mkNode Null (Some item)) in
      mkList (set_next h t (Obj a)) (head l) (Some a) (size l + 1)
  end.

Definition addToFront (l : LinkedList) (item : T) : LinkedList :=
  match tail l with
  | None =>
      let '(h, a) := alloc (heap l) (mkNode Null (Some item)) in
      mkList h (Obj a) (Some a) (size l + 1)
  | Some _ =>
      let '(h, a) := alloc (heap l) (mkNode (head l) (Some item)) in
      mkList h (Obj a) (tail l) (size l + 1)
  end.

(** The [while] of [nodeAt].  [currentNode] is an object throughout; the
    loop runs while it has a truthy [next] and [i < index].  [i] grows by one
    per turn from [1], so [Z.to_nat index] turns always suffice. *)
Fixpoint nodeAt_loop (fuel : nat) (h : Heap) (index : Z)
    (currentNode : addr) (i : Z) : addr * Z :=
  match fuel with
  | O => (currentNode, i)
  | S fuel' =>
      match get_next h currentNode with
      | Obj nxt =>
          if i <? index then nodeAt_loop fuel' h index nxt (i + 1)
          else (currentNode, i)
      | _ => (currentNode, i)
      end
  end.

Definition nodeAt (l : LinkedList) (index : Z) : result ref :=
  if index <? 0 then Return Null
  else if index =? 0 then Return (head l)
  else
    match head l with
    | Null => Return Null
    | Undefined => Throw TypeError
    | Obj c =>
        match get_next (heap l) c with
        | Null => Return Null
        | _ =>
            let '(currentNode, i) :=
              nodeAt_loop (Z.to_nat index) (heap l) index c 1 in
            if i <? index then Return Null else Return (Obj currentNode)
        end
    end.

(** *** Construction *)

(** The three ways the optional argument [value?: T | T[]] is passed. *)
Inductive ctor_arg : Type :=
| NoArg
| Value (v : T)
| Array (vs : list T).

Definition constructor (arg : ctor_arg) : LinkedList :=
  match arg with
  | NoArg => empty
  | Array vs => fold_left addToEnd vs empty
  | Value v =>
      if negb (truthy v) then empty
      else
        match array_items v with
        | Some items => fold_left addToEnd items empty
        | None =>
            let '(h, a) := alloc (heap empty) (mkNode Null (Some v)) in
            mkList h (Obj a) (Some a) (size empty + 1)
        end
  end.

Definition push (l : LinkedList) (v : T) : LinkedList := addToEnd l v.

Definition unshift (l : LinkedList) (v : T) : LinkedList := addToFront l v.

Definition from (iterableValue : list T) : LinkedList :=
  fold_left push iterableValue (constructor NoArg).

(** *** Removal at the ends *)

Definition pop (l : LinkedList) : result (option T * LinkedList) :=
  match head l with
  | Null => Throw PopEmpty
  | hd =>
      let* node := nodeAt l (size l - 2) in
      match node with
      | Null =>
          match hd with
          | Obj a =>
              Return (get_value (heap l) a,
                      mkList (heap l) Null None (size l - 1))
          | _ => Throw TypeError
          end
      | Undefined => Throw TypeError
      | Obj n =>
          match tail l with
          | None => Throw TypeError
          | Some t =>
              Return (get_value (heap l) t,
                      mkList (set_next (heap l) n Null) (head l) (Some n)
                             (size l - 1))
          end
      end
  end.

Definition shift (l : LinkedList) : result (option T * LinkedList) :=
  match head l with
  | Null => Throw ShiftEmpty
  | Undefined => Throw TypeError
  | Obj a =>
      let result := get_value (heap l) a in
      if is_truthy (get_next (heap l) a)
      then Return (result, mkList (heap l) Null None (size l - 1))
      else Return (result,
                   mkList (heap l) (get_next (heap l) a) (tail l) (size l - 1))
  end.

(** *** Indexed operations *)

Definition addAfter (l : LinkedList) (index : Z) (v : T) : result LinkedList :=
  let* prevNode := nodeAt l index in
  match prevNode with
  | Null => Throw (AddAfterNotExist index)
  | Undefined => Throw TypeError
  | Obj p =>
      let '(h, a) := alloc (heap l) (mkNode (get_next (heap l) p) (Some v)) in
      Return (mkList (set_next h p (Obj a)) (head l) (tail l) (size l + 1))
  end.

Definition removeAt (l : LinkedList) (index : Z) : result LinkedList :=
  let* node := nodeAt l (index - 1) in
  match node with
  | Null => Throw (RemoveAtNotExist index)
  | Undefined => Throw TypeError
  | Obj n =>
      match get_next (heap l) n with
      | Null => Throw (RemoveAtNotExist index)
      | Undefined => Throw TypeError
      | Obj temp =>
          let nextNode := get_next (heap l) temp in
          let h := set_next (heap l) n nextNode in
          Return (mkList (deleteNode h temp) (head l) (tail l) (size l - 1))
      end
  end.

(** The [while (i < index && node)] of [at]; at most [index] turns. *)
Fixpoint at_loop (fuel : nat) (h : Heap) (index : Z) (node : ref) (i : Z)
    : ref :=
  match fuel with
  | O => node
  | S fuel' =>
      if i <? index then
        match node with
        | Obj a => at_loop fuel' h index (get_next h a) (i + 1)
        | _ => node
        end
      else node
  end.

Definition at_ (l : LinkedList) (index : Z) : result (option T) :=
  match at_loop (Z.to_nat index) (heap l) index (head l) 0 with
  | Null => Throw (AtNoItem index)
  | Undefined => Throw TypeError
  | Obj a => Return (get_value (heap l) a)
  end.

(** *** Queries *)

Definition get_length (l : LinkedList) : Z := size l.

Definition isEmpy (l : LinkedList) : bool := size l =? 0.

(** [this.head?.value ?? null]: [None] is the [null] answer. *)
Definition fist (l : LinkedList) : option T :=
  match head l with
  | Obj a => get_value (heap l) a
  | _ => None
  end.

Definition last (l : LinkedList) : option T :=
  match tail l with
  | Some a => get_value (heap l) a
  | None => None
  end.

(** *** Loops that follow the chain to its end

    These stop only when the chain ends, so they take fuel and answer [None]
    when it runs out; [reachable_finite] shows that every list the class can
    build has a chain that ends. *)

Fixpoint clear_loop (fuel : nat) (h : Heap) (node : ref) : option Heap :=
  match node with
  | Obj temp =>
      match fuel with
      | O => None
      | S fuel' => clear_loop fuel' (deleteNode h temp) (get_next h temp)
      end
  | _ => Some h
  end.

Definition clear (fuel : nat) (l : LinkedList) : option LinkedList :=
  match clear_loop fuel (heap l) (head l) with
  | Some h => Some (mkList h (head l) (tail l) 0)
  | None => None
  end.

(** The array holds [T | undefined]: a node whose [value] was deleted
    contributes [undefined] ([None]). *)
Fixpoint toArray_loop (fuel : nat) (h : Heap) (node : ref)
    (result : list (option T)) : option (list (option T)) :=
  match node with
  | Obj a =>
      match fuel with
      | O => None
      | S fuel' =>
          toArray_loop fuel' h (get_next h a) (result ++ [get_value h a])
      end
  | _ => Some result
  end.

Definition toArray (fuel : nat) (l : LinkedList) : option (list (option T)) :=
  toArray_loop fuel (heap l) (head l) [].

(** [node.value !== value], where [value : T] is never [undefined]. *)
Definition strict_ne (x : option T) (v : T) : bool :=
  match x with
  | Some w => negb (strict_eq w v)
  | None => true
  end.

Fixpoint search_loop (fuel : nat) (h : Heap) (v : T) (node : ref) (index : Z)
    : option Z :=
  match node with
  | Obj a =>
      if strict_ne (get_value h a) v then
        match fuel with
        | O => None
        | S fuel' => search_loop fuel' h v (get_next h a) (index + 1)
        end
      else Some index
  | _ => Some index
  end.

Definition search (fuel : nat) (l : LinkedList) (v : T) : option Z :=
  search_loop fuel (heap l) v (head l) 0.

(** *** The iteration protocol

    The generator object is suspended either before its first statement or
    at the [yield], where the local [node] is live. *)
Inductive generator : Type :=
| SuspendedStart
| SuspendedYield (node : addr)
| Completed.

(** An iterator result: [Some v] is [{ value: v, done: false }]. *)
Definition gen_while (h : Heap) (node : ref)
    : option (option T) * generator :=
  match node with
  | Obj a => (Some (get_value h a), SuspendedYield a)
  | _ => (None, Completed)
  end.

Definition gen_next (l : LinkedList) (g : generator)
    : option (option T) * generator :=
  match g with
  | SuspendedStart => gen_while (heap l) (head l)
  | SuspendedYield a => gen_while (heap l) (get_next (heap l) a)
  | Completed => (None, Completed)
  end.

(** The reference a suspended generator tests when it is resumed. *)
Definition gen_pending (l : LinkedList) (g : generator) : ref :=
  match g with
  | SuspendedStart => head l
  | SuspendedYield a => get_next (heap l) a
  | Completed => Null
  end.

(** Draining an iterator, as [[...list]] or [for ... of] does. *)
Fixpoint drain (fuel : nat) (l : LinkedList) (g : generator)
    : option (list (option T)) :=
  match fuel with
  | O => None
  | S fuel' =>
      match gen_next l g with
      | (Some v, g') =>
          match drain fuel' l g' with
          | Some vs => Some (v :: vs)
          | None => None
          end
      | (None, _) => Some []
      end
  end.

Definition iterate (fuel : nat) (l : LinkedList) : option (list (option T)) :=
  drain fuel l SuspendedStart.

(** *** Higher-order traversal

    The callbacks are functions of the values they are passed.  [forEach]
    calls its callback for effect: the effect is a change of the caller's
    state [St], and the callback does not touch the list it runs over.  At
    run time the element passed is [node.value], which is [undefined] on an
    emptied node. *)

Fixpoint forEach_loop {St : Type} (fuel : nat) (h : Heap)
    (cb : option T -> Z -> St -> St) (node : ref) (i : Z) (st : St)
    : option St :=
  match node with
  | Obj a =>
      match fuel with
      | O => None
      | S fuel' =>
          forEach_loop fuel' h cb (get_next h a) (i + 1)
                       (cb (get_value h a) i st)
      end
  | _ => Some st
  end.

(** Returns [this] and the caller's state after the calls. *)
Definition forEach {St : Type} (fuel : nat) (l : LinkedList)
    (cb : option T -> Z -> St -> St) (st : St) : option (LinkedList * St) :=
  match forEach_loop fuel (heap l) cb (head l) 0 st with
  | Some st' => Some (l, st')
  | None => None
  end.

(** [list] is the new list under construction; its nodes are fresh objects,
    kept in a store of their own. *)
Fixpoint map_loop (fuel : nat) (h : Heap) (cb : option T -> Z -> T)
    (node : ref) (i : Z) (list : LinkedList) : option LinkedList :=
  match node with
  | Obj a =>
      match fuel with
      | O => None
      | S fuel' =>
          let value := cb (get_value h a) i in
          map_loop fuel' h cb (get_next h a) (i + 1) (push list value)
      end
  | _ => Some list
  end.

Definition map (fuel : nat) (l : LinkedList) (cb : option T -> Z -> T)
    : option LinkedList :=
  map_loop fuel (heap l) cb (head l) 0 (constructor NoArg).

Fixpoint reduce_loop {K : Type} (fuel : nat) (h : Heap)
    (cb : K -> option T -> Z -> K) (node : ref) (i : Z) (acc : K)
    : option K :=
  match node with
  | Obj a =>
      match fuel with
      | O => None
      | S fuel' =>
          reduce_loop fuel' h cb (get_next h a) (i + 1)
                      (cb acc (get_value h a) i)
      end
  | _ => Some acc
  end.

Definition reduce {K : Type} (fuel : nat) (l : LinkedList)
    (cb : K -> option T -> Z -> K) (initialValue : K) : option K :=
  reduce_loop fuel (heap l) cb (head l) 0 initialValue.

(** ** Lists the class can build *)

Inductive reachable : LinkedList -> Prop :=
| reach_constructor arg : reachable (constructor arg)
| reach_push l v : reachable l -> reachable (push l v)
| reach_unshift l v : reachable l -> reachable (unshift l v)
| reach_pop l v l' : reachable l -> pop l = Return (v, l') -> reachable l'
| reach_shift l v l' : reachable l -> shift l = Return (v, l') -> reachable l'
| reach_addAfter l i v l' :
    reachable l -> addAfter l i v = Return l' -> reachable l'
| reach_removeAt l i l' :
    reachable l -> removeAt l i = Return l' -> reachable l'
| reach_clear fuel l l' :
    reachable l -> clear fuel l = Some l' -> reachable l'.

(** ** Shape of the store *)

(** A reference is closed when it does not point outside the store. *)
Definition closed_ref (h : Heap) (r : ref) : Prop :=
  match r with
  | Obj a => (a < length h)%nat
  | _ => True
  end.

Definition closed_heap (h : Heap) : Prop :=
  forall a, closed_ref h (get_next h a).

(** Following [next] from [r] comes to an end. *)
Inductive finite_from (h : Heap) : ref -> Prop :=
| ff_null : finite_from h Null
| ff_undefined : finite_from h Undefined
| ff_obj a : finite_from h (get_next h a) -> finite_from h (Obj a).

Record well_formed (l : LinkedList) : Prop := mkWf {
  wf_closed : closed_heap (heap l);
  wf_finite : forall r, finite_from (heap l) r;
  wf_head : closed_ref (heap l) (head l);
  wf_tail : forall t, tail l = Some t -> (t < length (heap l))%nat
}.

(** The values met when following [next] from [r], in chain order. *)
Inductive chain_values (h : Heap) : ref -> list (option T) -> Prop :=
| cv_end r : is_truthy r = false -> chain_values h r []
| cv_step a vs :
    chain_values h (get_next h a) vs ->
    chain_values h (Obj a) (get_value h a :: vs).

(** The chain from [r] consists of the nodes [addrs], in order, and ends
    with [null]. *)
Fixpoint chain_from (h : Heap) (r : ref) (addrs : list addr) : Prop :=
  match addrs with
  | [] => r = Null
  | a :: rest => r = Obj a /\ chain_from h (get_next h a) rest
  end.

(** The list holds exactly the values [vs], in the nodes [addrs]: the
    data model of the specification, with [tail] on the last node and
    [size] the number of nodes. *)
Record represents (l : LinkedList) (addrs : list addr) (vs : list T)
    : Prop := mkRep {
  rep_chain : chain_from (heap l) (head l) addrs;
  rep_nodup : NoDup addrs;
  rep_closed : Forall (fun a => (a < length (heap l))%nat) addrs;
  rep_values : get_value (heap l) <$> addrs = Some <$> vs;
  rep_tail : tail l = list.last addrs;
  rep_size : size l = Z.of_nat (length addrs)
}.

(** What [nodeAt] answers on a chain of nodes [addrs]: from index [1] on,
    the node one position before the index. *)
Definition nodeAt_answer (addrs : list addr) (index : Z) : ref :=
  if index <? 0 then Null
  else if index =? 0 then
    match addrs with
    | [] => Null
    | a :: _ => Obj a
    end
  else if (2 <=? length addrs)%nat then
    match addrs !! Z.to_nat (index - 1) with
    | Some a => Obj a
    | None => Null
    end
  else Null.

(** Position of the first element that is not [!==] to [v], or the length. *)
Fixpoint first_match (vs : list (option T)) (v : T) : nat :=
  match vs with
  | [] => O
  | x :: vs' => if strict_ne x v then S (first_match vs' v) else O
  end.

(** ** The invariants of the data model *)

(** The reference reached from [r] after [n] successor steps. *)
Fixpoint successor_steps (h : Heap) (n : nat) (r : ref) : ref :=
  match n with
  | O => r
  | S n' =>
      match r with
      | Obj a => successor_steps h n' (get_next h a)
      | _ => r
      end
  end.

(** [count = 0] iff [first] is absent iff [last] is absent; and for
    [count > 0] the node [count - 1] steps after [first] is [last] and has
    no successor. *)
Definition invariant (l : LinkedList) : Prop :=
  (size l = 0 <-> head l = Null) /\
  (head l = Null <-> tail l = None) /\
  (0 < size l ->
   exists a,
     successor_steps (heap l) (Z.to_nat (size l - 1)) (head l) = Obj a /\
     tail l = Some a /\
     get_next (heap l) a = Null).

(** ** Reference behaviour on plain lists *)

(** The elements of [vs] paired with their positions, counted from [i]. *)
Fixpoint enumerate_from {A : Type} (i : Z) (vs : list A) : list (Z * A) :=
  match vs with
  | [] => []
  | v :: vs' => (i, v) :: enumerate_from (i + 1) vs'
  end.

(** A call of [push] or of [unshift], and what it does to a plain list. *)
Inductive insertion : Type :=
| Push (v : T)
| Unshift (v : T).

Definition apply_insertion (l : LinkedList) (op : insertion) : LinkedList :=
  match op with
  | Push v => push l v
  | Unshift v => unshift l v
  end.

Definition insertion_model (vs : list T) (op : insertion) : list T :=
  match op with
  | Push v => vs ++ [v]
  | Unshift v => v :: vs
  end.

(** The values a constructor argument asks for: a falsy single value
    counts as no argument, and a single value that is an array counts as
    the sequence of its elements. *)
Definition ctor_values (arg : ctor_arg) : list T :=
  match arg with
  | NoArg => []
  | Value v =>
      if truthy v then
        match array_items v with
        | Some items => items
        | None => [v]
        end
      else []
  | Array vs => vs
  end.

(** * Properties *)

(** ** Reading the store after a write *)

Lemma get_next_ge (h : Heap) a : (length h <= a)%nat -> get_next h a = Undefined.
Proof.
  intros Hge. unfold get_next. by rewrite lookup_ge_None_2.
Qed.

Lemma get_next_set_next_eq (h : Heap) a r :
  (a < length h)%nat -> get_next (set_next h a r) a = r.
Proof.
  intros Hlt. unfold get_next, set_next.
  rewrite list_lookup_alter_eq.
  destruct (lookup_lt_is_Some_2 h a Hlt) as [n Hn]. by rewrite Hn.
Qed.

Lemma get_next_set_next_ne (h : Heap) a b r :
  a <> b -> get_next (set_next h a r) b = get_next h b.
Proof.
  intros Hne. unfold get_next, set_next. by rewrite list_lookup_alter_ne.
Qed.

Lemma get_value_set_next (h : Heap) a b r :
  get_value (set_next h a r) b = get_value h b.
Proof.
  unfold get_value, set_next. rewrite list_lookup_alter.
  case_decide; [subst b|done]. destruct (h !! a); reflexivity.
Qed.

Lemma length_set_next (h : Heap) a r : length (set_next h a r) = length h.
Proof. apply length_alter. Qed.

Lemma length_deleteNode (h : Heap) a : length (deleteNode h a) = length h.
Proof. apply length_insert. Qed.

Lemma get_next_alloc_old (h : Heap) n a :
  (a < length h)%nat -> get_next (h ++ [n]) a = get_next h a.
Proof.
  intros Hlt. unfold get_next. by rewrite lookup_app_l.
Qed.

Lemma get_next_alloc_new (h : Heap) n : get_next (h ++ [n]) (length h) = next n.
Proof.
  unfold get_next. by rewrite list_lookup_middle.
Qed.

Lemma get_next_deleteNode (h : Heap) a b :
  get_next (deleteNode h a) b = get_next h b \/
  get_next (deleteNode h a) b = Undefined.
Proof.
  unfold get_next, deleteNode. rewrite list_lookup_insert.
  case_decide; [by right|by left].
Qed.

(** ** Closed stores *)

Lemma closed_ref_mono (h h' : Heap) r :
  (length h <= length h')%nat -> closed_ref h r -> closed_ref h' r.
Proof.
  destruct r; simpl; auto. lia.
Qed.

Lemma closed_heap_alloc (h : Heap) n :
  closed_heap h -> closed_ref h (next n) -> closed_heap (h ++ [n]).
Proof.
  intros Hc Hn a.
  assert (Hlen : (length h <= length (h ++ [n]))%nat)
    by (rewrite length_app; lia).
  destruct (lt_eq_lt_dec a (length h)) as [[Hlt|Heq]|Hgt].
  - rewrite get_next_alloc_old by done. eapply closed_ref_mono; eauto.
  - subst a. rewrite get_next_alloc_new. eapply closed_ref_mono; eauto.
  - rewrite get_next_ge; [done|]. rewrite length_app. simpl. lia.
Qed.

Lemma closed_heap_set_next (h : Heap) a r :
  closed_heap h -> closed_ref h r -> closed_heap (set_next h a r).
Proof.
  intros Hc Hr b.
  assert (Hlen : (length h <= length (set_next h a r))%nat)
    by (rewrite length_set_next; lia).
  destruct (decide (a = b)) as [->|Hne].
  - destruct (le_lt_dec (length h) b) as [Hge|Hlt].
    + rewrite get_next_ge; [done|]. by rewrite length_set_next.
    + rewrite get_next_set_next_eq by done. eapply closed_ref_mono; eauto.
  - rewrite get_next_set_next_ne by done. eapply closed_ref_mono; eauto.
Qed.

Lemma closed_heap_deleteNode (h : Heap) a :
  closed_heap h -> closed_heap (deleteNode h a).
Proof.
  intros Hc b.
  destruct (get_next_deleteNode h a b) as [-> | ->]; [|done].
  eapply closed_ref_mono; [|apply Hc]. by rewrite length_deleteNode.
Qed.

(** ** Chains that end *)

(** A store change keeps every chain finite as soon as each rewritten
    [next] is finite whenever the old one was. *)
Lemma finite_from_transfer (h h' : Heap) :
  (forall b, finite_from h' (get_next h b) -> finite_from h' (get_next h' b)) ->
  forall r, finite_from h r -> finite_from h' r.
Proof.
  intros Hstep r Hfin.
  induction Hfin as [| |a _ IH]; constructor; auto.
Qed.

Lemma finite_alloc (h : Heap) n :
  closed_heap h -> closed_ref h (next n) ->
  (forall r, finite_from h r) -> forall r, finite_from (h ++ [n]) r.
Proof.
  intros Hc Hn Hfin.
  assert (Hold : forall r, closed_ref h r -> finite_from (h ++ [n]) r).
  { intros r Hr. specialize (Hfin r).
    induction Hfin as [| |a _ IH]; constructor.
    simpl in Hr. rewrite get_next_alloc_old by done. apply IH, Hc. }
  intros [| |a]; try constructor.
  destruct (lt_eq_lt_dec a (length h)) as [[Hlt|Heq]|Hgt].
  - rewrite get_next_alloc_old by done. apply Hold, Hc.
  - subst a. rewrite get_next_alloc_new. by apply Hold.
  - rewrite get_next_ge; [constructor|]. rewrite length_app. simpl. lia.
Qed.

Lemma finite_set_next (h : Heap) a r :
  (forall x, finite_from h x) ->
  (finite_from (set_next h a r) (get_next h a) ->
   finite_from (set_next h a r) r) ->
  forall x, finite_from (set_next h a r) x.
Proof.
  intros Hfin Hr x. apply (finite_from_transfer h); [|apply Hfin].
  intros b Hb. destruct (decide (a = b)) as [->|Hne].
  - destruct (le_lt_dec (length h) b) as [Hge|Hlt].
    + rewrite get_next_ge; [constructor|]. by rewrite length_set_next.
    + rewrite get_next_set_next_eq by done. auto.
  - by rewrite get_next_set_next_ne.
Qed.

Lemma finite_deleteNode (h : Heap) a :
  (forall x, finite_from h x) -> forall x, finite_from (deleteNode h a) x.
Proof.
  intros Hfin x. apply (finite_from_transfer h); [|apply Hfin].
  intros b Hb. destruct (get_next_deleteNode h a b) as [-> | ->];
    [done|constructor].
Qed.

(** ** Every list the class builds is well formed *)

Lemma well_formed_empty : well_formed empty.
Proof.
  split; simpl; try done.
  intros r. destruct r; constructor. apply ff_undefined.
Qed.

Lemma length_snoc (h : Heap) n : length (h ++ [n]) = S (length h).
Proof. rewrite length_app. simpl. lia. Qed.

Lemma well_formed_fresh_head (l : LinkedList) n tl sz :
  well_formed l -> closed_ref (heap l) (next n) ->
  (forall t, tl = Some t -> (t <= length (heap l))%nat) ->
  well_formed (mkList (heap l ++ [n]) (Obj (length (heap l))) tl sz).
Proof.
  intros [Hc Hf Hh Ht] Hn Htl. split; simpl.
  - by apply closed_heap_alloc.
  - by apply finite_alloc.
  - rewrite length_snoc. lia.
  - intros t Heq. rewrite length_snoc. specialize (Htl t Heq). lia.
Qed.

Lemma well_formed_addToEnd l item : well_formed l -> well_formed (addToEnd l item).
Proof.
  intros Hwf. unfold addToEnd. destruct (tail l) as [t|] eqn:Htail; simpl.
  - destruct Hwf as [Hc Hf Hh Ht]. specialize (Ht t Htail).
    set (n := mkNode Null (Some item)).
    assert (Hc1 : closed_heap (heap l ++ [n])) by by apply closed_heap_alloc.
    split; simpl.
    + apply closed_heap_set_next; [done|]. simpl. rewrite length_snoc. lia.
    + apply finite_set_next; [by apply finite_alloc|].
      intros _. constructor.
      rewrite get_next_set_next_ne by lia.
      rewrite get_next_alloc_new. constructor.
    + eapply closed_ref_mono; [|exact Hh].
      rewrite length_set_next, length_snoc. lia.
    + intros t' [= <-]. rewrite length_set_next, length_snoc. lia.
  - apply well_formed_fresh_head; [done|done|].
    intros t [= <-]. lia.
Qed.

Lemma well_formed_addToFront l item :
  well_formed l -> well_formed (addToFront l item).
Proof.
  intros Hwf. unfold addToFront. destruct (tail l) as [t|] eqn:Htail; simpl.
  - apply well_formed_fresh_head; [done|apply Hwf|].
    intros t' [= <-]. pose proof (wf_tail l Hwf t Htail). lia.
  - apply well_formed_fresh_head; [done|done|].
    intros t [= <-]. lia.
Qed.

Lemma well_formed_fold_addToEnd vs l :
  well_formed l -> well_formed (fold_left addToEnd vs l).
Proof.
  revert l. induction vs as [|v vs IH]; intros l Hwf; simpl; [done|].
  by apply IH, well_formed_addToEnd.
Qed.

Lemma well_formed_constructor arg : well_formed (constructor arg).
Proof.
  destruct arg as [|v|vs]; simpl.
  - apply well_formed_empty.
  - destruct (truthy v); simpl; [|apply well_formed_empty].
    destruct (array_items v) as [items|].
    + apply well_formed_fold_addToEnd, well_formed_empty.
    + apply (well_formed_fresh_head empty); [apply well_formed_empty|done|].
      intros t [= <-]. simpl. lia.
  - apply well_formed_fold_addToEnd, well_formed_empty.
Qed.

Lemma nodeAt_loop_closed fuel (h : Heap) index c i :
  closed_heap h -> (c < length h)%nat ->
  ((nodeAt_loop fuel h index c i).1 < length h)%nat.
Proof.
  intros Hc. revert c i.
  induction fuel as [|fuel IH]; intros c i Hlt; simpl; [done|].
  pose proof (Hc c) as Hnext.
  destruct (get_next h c) as [| |nxt]; try done.
  destruct (i <? index); [|done]. by apply IH.
Qed.

Lemma nodeAt_closed l index r :
  well_formed l -> nodeAt l index = Return r -> closed_ref (heap l) r.
Proof.
  intros [Hc Hf Hh Ht]. unfold nodeAt.
  destruct (index <? 0); [by intros [= <-]|].
  destruct (index =? 0); [by intros [= <-]|].
  destruct (head l) as [| |c]; [by intros [= <-]|done|].
  pose proof (nodeAt_loop_closed (Z.to_nat index) (heap l) index c 1 Hc Hh)
    as Hloop.
  destruct (get_next (heap l) c); [by intros [= <-]| |];
    destruct (nodeAt_loop _ _ _ _ _) as [cur i]; simpl in Hloop;
    destruct (i <? index); by intros [= <-].
Qed.

Lemma well_formed_sever l n sz :
  well_formed l -> (n < length (heap l))%nat ->
  well_formed (mkList (set_next (heap l) n Null) (head l) (Some n) sz).
Proof.
  intros [Hc Hf Hh Ht] Hn. split; simpl.
  - by apply closed_heap_set_next.
  - apply finite_set_next; [done|]. intros _. apply ff_null.
  - eapply closed_ref_mono; [|exact Hh]. by rewrite length_set_next.
  - intros t' [= <-]. by rewrite length_set_next.
Qed.

Lemma well_formed_pop l v l' :
  well_formed l -> pop l = Return (v, l') -> well_formed l'.
Proof.
  intros Hwf. pose proof Hwf as [Hc Hf Hh Ht]. unfold pop.
  destruct (nodeAt l (size l - 2)) as [node|e] eqn:Hnode;
    [|by destruct (head l)].
  apply nodeAt_closed in Hnode; [|done].
  assert (Hempty : well_formed (mkList (heap l) Null None (size l - 1)))
    by (split; simpl; done).
  destruct (head l) as [| |a] eqn:Hhead; simpl; [done| |];
    destruct node as [| |n]; try done; try (by intros [= _ <-]);
    (destruct (tail l) as [t|]; [|done]); intros [= _ <-];
    rewrite <- Hhead; by apply well_formed_sever.
Qed.

Lemma well_formed_shift l v l' :
  well_formed l -> shift l = Return (v, l') -> well_formed l'.
Proof.
  intros [Hc Hf Hh Ht]. unfold shift.
  destruct (head l) as [| |a]; [done|done|].
  destruct (is_truthy (get_next (heap l) a)); intros [= _ <-];
    split; simpl; try done; apply Hc.
Qed.

Lemma well_formed_addAfter l index v l' :
  well_formed l -> addAfter l index v = Return l' -> well_formed l'.
Proof.
  intros Hwf. pose proof Hwf as [Hc Hf Hh Ht]. unfold addAfter.
  destruct (nodeAt l index) as [prev|e] eqn:Hprev; [|done].
  apply nodeAt_closed in Hprev; [|done].
  destruct prev as [| |p]; simpl; [done|done|]. simpl in Hprev.
  intros [= <-].
  set (n := mkNode (get_next (heap l) p) (Some v)).
  assert (Hc1 : closed_heap (heap l ++ [n]))
    by (apply closed_heap_alloc; [done|apply Hc]).
  split; simpl.
  - apply closed_heap_set_next; [done|]. simpl. rewrite length_snoc. lia.
  - apply finite_set_next; [apply finite_alloc; [done|apply Hc|done]|].
    intros Hold. constructor.
    rewrite get_next_set_next_ne by lia.
    rewrite get_next_alloc_new. simpl.
    by rewrite get_next_alloc_old in Hold.
  - eapply closed_ref_mono; [|exact Hh].
    rewrite length_set_next, length_snoc. lia.
  - intros t Heq. rewrite length_set_next, length_snoc.
    specialize (Ht t Heq). lia.
Qed.

Lemma well_formed_removeAt l index l' :
  well_formed l -> removeAt l index = Return l' -> well_formed l'.
Proof.
  intros Hwf. pose proof Hwf as [Hc Hf Hh Ht]. unfold removeAt.
  destruct (nodeAt l (index - 1)) as [node|e] eqn:Hnode; [|done].
  apply nodeAt_closed in Hnode; [|done].
  destruct node as [| |n]; simpl; [done|done|]. simpl in Hnode.
  pose proof (Hc n) as Hn.
  destruct (get_next (heap l) n) as [| |temp] eqn:Htemp; [done|done|].
  simpl in Hn. intros [= <-]. split; simpl.
  - apply closed_heap_deleteNode, closed_heap_set_next; [done|apply Hc].
  - apply finite_deleteNode, finite_set_next; [done|].
    intros Hold. rewrite Htemp in Hold.
    inversion Hold as [| |? Hnext]; subst.
    destruct (decide (n = temp)) as [->|Hne].
    + by rewrite get_next_set_next_eq in Hnext.
    + by rewrite get_next_set_next_ne in Hnext.
  - eapply closed_ref_mono; [|exact Hh].
    by rewrite length_deleteNode, length_set_next.
  - intros t Heq. rewrite length_deleteNode, length_set_next. by apply Ht.
Qed.

Lemma clear_loop_shape fuel (h h' : Heap) node :
  clear_loop fuel h node = Some h' ->
  closed_heap h -> (forall r, finite_from h r) ->
  closed_heap h' /\ (forall r, finite_from h' r) /\ length h' = length h.
Proof.
  revert h node.
  induction fuel as [|fuel IH]; intros h node;
    destruct node as [| |temp]; simpl; try done;
    try (by intros [= <-]).
  intros Hloop Hc Hf.
  apply IH in Hloop as (Hc' & Hf' & Hlen).
  - by rewrite length_deleteNode in Hlen.
  - by apply closed_heap_deleteNode.
  - by apply finite_deleteNode.
Qed.

Lemma well_formed_clear fuel l l' :
  well_formed l -> clear fuel l = Some l' -> well_formed l'.
Proof.
  intros [Hc Hf Hh Ht]. unfold clear.
  destruct (clear_loop fuel (heap l) (head l)) as [h|] eqn:Hloop; [|done].
  apply clear_loop_shape in Hloop as (Hc' & Hf' & Hlen); [|done..].
  intros [= <-]. split; simpl; try done.
  - eapply closed_ref_mono; [|exact Hh]. lia.
  - intros t Heq. rewrite Hlen. by apply Ht.
Qed.

Lemma reachable_well_formed l : reachable l -> well_formed l.
Proof.
  induction 1;
    eauto using well_formed_constructor, well_formed_addToEnd,
      well_formed_addToFront, well_formed_pop, well_formed_shift,
      well_formed_addAfter, well_formed_removeAt, well_formed_clear.
Qed.

(** The chain of a reachable list comes to an end. *)
Lemma reachable_finite l : reachable l -> finite_from (heap l) (head l).
Proof.
  intros Hr. apply (wf_finite l (reachable_well_formed l Hr)).
Qed.

(** No reference of a reachable list points outside the store. *)
Lemma closed_reachable l :
  reachable l ->
  closed_heap (heap l) /\ closed_ref (heap l) (head l) /\
  forall t, tail l = Some t -> (t < length (heap l))%nat.
Proof.
  intros Hr. destruct (reachable_well_formed l Hr) as [Hc _ Hh Ht]. auto.
Qed.

(** ** The loops that run to the end of the chain *)

Lemma finite_chain_values (h : Heap) r :
  finite_from h r -> exists vs, chain_values h r vs.
Proof.
  induction 1 as [| |a _ [vs IH]].
  - exists []. by constructor.
  - exists []. by constructor.
  - exists (get_value h a :: vs). by constructor.
Qed.

Lemma chain_values_unique (h : Heap) r vs vs' :
  chain_values h r vs -> chain_values h r vs' -> vs = vs'.
Proof.
  intros Hvs. revert vs'.
  induction Hvs as [r Hr|a vs _ IH]; intros vs' Hvs'.
  - inversion Hvs'; subst; [done|discriminate].
  - inversion Hvs' as [? Hr|? ws Hws]; subst; [discriminate|].
    f_equal. by apply IH.
Qed.

Lemma toArray_loop_chain (h : Heap) r vs :
  chain_values h r vs ->
  forall fuel result, (length vs <= fuel)%nat ->
    toArray_loop fuel h r result = Some (result ++ vs).
Proof.
  induction 1 as [r Hr|a vs _ IH]; intros fuel result Hfuel.
  - rewrite app_nil_r. destruct r; try discriminate; by destruct fuel.
  - destruct fuel as [|fuel]; simpl in *; [lia|].
    rewrite IH by lia. by rewrite <- app_assoc.
Qed.

Lemma toArray_loop_inv fuel (h : Heap) r result out :
  toArray_loop fuel h r result = Some out ->
  exists vs, out = result ++ vs /\ chain_values h r vs /\
             (length vs <= fuel)%nat.
Proof.
  revert r result.
  induction fuel as [|fuel IH]; intros r result;
    destruct r as [| |a]; simpl; try done;
    try (intros [= <-]; exists []; rewrite app_nil_r;
         split_and!; [done|by constructor|simpl; lia]).
  intros Hloop. apply IH in Hloop as (vs & -> & Hvs & Hlen).
  exists (get_value h a :: vs). rewrite <- app_assoc.
  split_and!; [done|by constructor|simpl; lia].
Qed.

Lemma gen_next_pending l g :
  g <> Completed -> gen_next l g = gen_while (heap l) (gen_pending l g).
Proof. by destruct g. Qed.

Lemma drain_chain l vs :
  forall r, chain_values (heap l) r vs ->
  forall fuel g, g <> Completed -> gen_pending l g = r ->
    (length vs < fuel)%nat -> drain fuel l g = Some vs.
Proof.
  induction 1 as [r Hr|a vs _ IH]; intros fuel g Hg Hpend Hfuel;
    (destruct fuel as [|fuel]; simpl in *; [lia|]);
    rewrite gen_next_pending, Hpend by done.
  - by destruct r.
  - simpl. by rewrite (IH fuel (SuspendedYield a)) by (done || lia).
Qed.

Lemma drain_inv fuel l g vs :
  drain fuel l g = Some vs -> g <> Completed ->
  chain_values (heap l) (gen_pending l g) vs.
Proof.
  revert g vs.
  induction fuel as [|fuel IH]; intros g vs; simpl; [done|].
  intros Hdrain Hg. rewrite gen_next_pending in Hdrain by done.
  destruct (gen_pending l g) as [| |a]; simpl in Hdrain;
    try (injection Hdrain as <-; by constructor).
  destruct (drain fuel l (SuspendedYield a)) as [ws|] eqn:Hrest; [|done].
  injection Hdrain as <-. constructor. by apply (IH (SuspendedYield a)).
Qed.

(** Whatever the list, whenever both loops return they return the same. *)
Lemma iterate_toArray_same l fuel fuel' xs ys :
  toArray fuel l = Some xs -> iterate fuel' l = Some ys -> xs = ys.
Proof.
  intros Harr Hit.
  apply toArray_loop_inv in Harr as (vs & -> & Hvs & _).
  apply drain_inv in Hit; [|done].
  apply (chain_values_unique _ _ _ _ Hvs Hit).
Qed.

Lemma search_loop_chain (h : Heap) v r vs :
  chain_values h r vs ->
  forall fuel index, (length vs <= fuel)%nat ->
    search_loop fuel h v r index =
    Some (index + Z.of_nat (first_match vs v)).
Proof.
  induction 1 as [r Hr|a vs _ IH]; intros fuel index Hfuel.
  - simpl. rewrite Z.add_0_r.
    destruct r; try discriminate; by destruct fuel.
  - simpl in *. destruct fuel as [|fuel]; [lia|]. simpl.
    destruct (strict_ne (get_value h a) v); [|by rewrite Z.add_0_r].
    rewrite IH by lia. f_equal. lia.
Qed.




(** ** Walking to an index *)

Lemma nodeAt_loop_chain (h : Heap) index rest :
  forall c i fuel k,
    chain_from h (get_next h c) rest ->
    k = Nat.min (Z.to_nat (index - i)) (length rest) ->
    (k <= fuel)%nat ->
    exists a, (c :: rest) !! k = Some a /\
              nodeAt_loop fuel h index c i = (a, i + Z.of_nat k).
Proof.
  induction rest as [|b rest IH]; intros c i fuel k Hchain -> Hfuel.
  - simpl in Hchain. rewrite Nat.min_0_r. exists c. split; [done|].
    rewrite Z.add_0_r. destruct fuel; simpl; [done|]. by rewrite Hchain.
  - destruct Hchain as [Hnext Hchain].
    destruct (Z.ltb_spec i index) as [Hlt|Hge].
    + destruct fuel as [|fuel]; [simpl in Hfuel; lia|].
      simpl nodeAt_loop. rewrite Hnext.
      destruct (Z.ltb_spec i index); [|lia].
      destruct (IH b (i + 1) fuel _ Hchain eq_refl) as (a & Ha & Hloop).
      { simpl in Hfuel. lia. }
      exists a. rewrite Hloop.
      replace (Z.to_nat (index - i)) with (S (Z.to_nat (index - (i + 1))))
        by lia.
      simpl. split; [done|]. f_equal. lia.
    + replace (Z.to_nat (index - i)) with O by lia. simpl.
      exists c. split; [done|]. rewrite Z.add_0_r.
      destruct fuel; simpl; [done|]. rewrite Hnext.
      by destruct (Z.ltb_spec i index); [lia|].
Qed.

(** [nodeAt] on a well-formed chain: for [index >= 1] the answer is the
    node at position [index - 1], or [null] past [index = length]. *)
Lemma nodeAt_chain l addrs index :
  chain_from (heap l) (head l) addrs ->
  nodeAt l index = Return (nodeAt_answer addrs index).
Proof.
  intros Hchain. unfold nodeAt, nodeAt_answer.
  destruct (Z.ltb_spec index 0) as [|Hnonneg]; [done|].
  destruct (Z.eqb_spec index 0) as [|Hpos].
  { destruct addrs as [|a rest]; simpl in Hchain; [by rewrite Hchain|].
    by destruct Hchain as [-> _]. }
  destruct addrs as [|c [|b rest]]; simpl in Hchain.
  - by rewrite Hchain.
  - destruct Hchain as [-> ->]. done.
  - destruct Hchain as (-> & Hnext & Hchain). rewrite Hnext.
    destruct (nodeAt_loop_chain (heap l) index (b :: rest) c 1
                (Z.to_nat index) _ (conj Hnext Hchain) eq_refl)
      as (a & Ha & ->); [lia|].
    set (k := Nat.min (Z.to_nat (index - 1)) (length (b :: rest))) in *.
    destruct (Z.ltb_spec (1 + Z.of_nat k) index) as [Hshort|Hthere].
    + rewrite lookup_ge_None_2; [done|]. simpl in *. lia.
    + replace (Z.to_nat (index - 1)) with k by (simpl in *; lia).
      by rewrite Ha.
Qed.

(** [at] on a well-formed chain and a non-negative index. *)
Lemma at_loop_chain (h : Heap) index addrs :
  forall r i fuel,
    chain_from h r addrs -> i <= index ->
    (Z.to_nat (index - i) <= fuel)%nat ->
    at_loop fuel h index r i =
    match addrs !! Z.to_nat (index - i) with
    | Some a => Obj a
    | None => Null
    end.
Proof.
  induction addrs as [|a addrs IH]; intros r i fuel Hchain Hle Hfuel;
    simpl in Hchain.
  - subst r. destruct fuel; simpl; [done|]. by destruct (i <? index).
  - destruct Hchain as [-> Hchain].
    destruct (Z.ltb_spec i index) as [Hlt|Hge].
    + destruct fuel as [|fuel]; [lia|]. simpl.
      destruct (Z.ltb_spec i index); [|lia].
      rewrite (IH _ (i + 1)) by (done || lia).
      replace (Z.to_nat (index - i)) with (S (Z.to_nat (index - (i + 1))))
        by lia.
      done.
    + replace (Z.to_nat (index - i)) with O by lia. simpl.
      destruct fuel; simpl; [done|].
      by destruct (Z.ltb_spec i index); [lia|].
Qed.

Lemma at_chain l addrs index :
  chain_from (heap l) (head l) addrs -> 0 <= index ->
  at_ l index =
  match addrs !! Z.to_nat index with
  | Some a => Return (get_value (heap l) a)
  | None => Throw (AtNoItem index)
  end.
Proof.
  intros Hchain Hnonneg. unfold at_.
  rewrite (at_loop_chain _ _ addrs) by (done || lia).
  rewrite Z.sub_0_r. by destruct (addrs !! Z.to_nat index).
Qed.

(** A negative index skips the loop of [at]: the first node answers. *)
Lemma at_negative l index a :
  index < 0 -> head l = Obj a -> at_ l index = Return (get_value (heap l) a).
Proof.
  intros Hneg Hhead. unfold at_.
  replace (Z.to_nat index) with O by lia. simpl. by rewrite Hhead.
Qed.

(** [removeAt(0)] asks [nodeAt] for index [-1] and always throws. *)
Lemma removeAt_zero l : removeAt l 0 = Throw (RemoveAtNotExist 0).
Proof. reflexivity. Qed.

(** [shift] on a first node that has a successor. *)
Lemma shift_with_successor l a b :
  head l = Obj a -> get_next (heap l) a = Obj b ->
  shift l = Return (get_value (heap l) a,
                    mkList (heap l) Null None (size l - 1)).
Proof.
  intros Hhead Hnext. unfold shift. by rewrite Hhead, Hnext.
Qed.

(** [clear] writes [size] and the fields of the nodes, nothing else. *)
Lemma clear_keeps_references fuel l l' :
  clear fuel l = Some l' ->
  head l' = head l /\ tail l' = tail l /\ size l' = 0.
Proof.
  unfold clear. destruct (clear_loop fuel (heap l) (head l)); [|done].
  by intros [= <-].
Qed.

(** The single-value constructor on falsy and on truthy values. *)
Lemma constructor_falsy v : truthy v = false -> constructor (Value v) = empty.
Proof.
  intros Hv. simpl. by rewrite Hv.
Qed.

Lemma constructor_truthy v :
  truthy v = true -> array_items v = None ->
  constructor (Value v) =
  mkList [mkNode Null (Some v)] (Obj 0%nat) (Some 0%nat) 1.
Proof.
  intros Hv Hitems. simpl. by rewrite Hv, Hitems.
Qed.

(** A single value that is an array is taken for the sequence of its
    elements. *)
Lemma constructor_single_array v items :
  truthy v = true -> array_items v = Some items ->
  constructor (Value v) = constructor (Array items).
Proof.
  intros Hv Hitems. simpl. by rewrite Hv, Hitems.
Qed.

(** ** Lists that satisfy the data model *)

Lemma get_value_alloc_old (h : Heap) n a :
  (a < length h)%nat -> get_value (h ++ [n]) a = get_value h a.
Proof.
  intros Hlt. unfold get_value. by rewrite lookup_app_l.
Qed.

Lemma get_value_alloc_new (h : Heap) n :
  get_value (h ++ [n]) (length h) = value n.
Proof.
  unfold get_value. by rewrite list_lookup_middle.
Qed.

Lemma chain_from_alloc (h : Heap) n addrs :
  forall r, chain_from h r addrs ->
  Forall (fun a => (a < length h)%nat) addrs ->
  chain_from (h ++ [n]) r addrs.
Proof.
  induction addrs as [|a addrs IH]; intros r; simpl; [done|].
  intros [-> Hchain] [Ha Hrest]%Forall_cons. split; [done|].
  rewrite get_next_alloc_old by done. by apply IH.
Qed.

Lemma chain_from_set_next_other (h : Heap) t x addrs :
  forall r, chain_from h r addrs -> t ∉ addrs ->
  chain_from (set_next h t x) r addrs.
Proof.
  induction addrs as [|a addrs IH]; intros r; simpl; [done|].
  intros [-> Hchain] [Hne Hnotin]%not_elem_of_cons. split; [done|].
  rewrite get_next_set_next_ne by done. by apply IH.
Qed.

(** Linking a fresh last node behind the last node [t] of a chain. *)
Lemma chain_from_link_last (h : Heap) t fresh pre :
  forall r, chain_from h r (pre ++ [t]) -> NoDup (pre ++ [t]) ->
  (t < length h)%nat -> get_next h fresh = Null -> fresh <> t ->
  fresh ∉ pre ->
  chain_from (set_next h t (Obj fresh)) r ((pre ++ [t]) ++ [fresh]).
Proof.
  induction pre as [|a pre IH]; intros r; simpl.
  - intros (-> & Hnext) _ Ht Hfresh Hne _. split_and!; [done| |].
    + by rewrite get_next_set_next_eq.
    + by rewrite get_next_set_next_ne.
  - intros [-> Hchain] [Hnotin Hnodup]%NoDup_cons Ht Hfresh Hne
      [Hfa Hfpre]%not_elem_of_cons.
    split; [done|].
    apply not_elem_of_app in Hnotin as [_ Hat].
    rewrite get_next_set_next_ne
      by (intros ->; apply Hat; by apply list_elem_of_singleton).
    by apply IH.
Qed.

Lemma represents_empty : represents empty [] [].
Proof. split; simpl; try done. constructor. Qed.

Lemma represents_nil_tail l addrs vs :
  represents l addrs vs -> tail l = None -> addrs = [].
Proof.
  intros Hrep Htail. rewrite (rep_tail _ _ _ Hrep) in Htail.
  destruct addrs as [|a addrs] using rev_ind; [done|].
  by rewrite last_snoc in Htail.
Qed.

Lemma Forall_lt_weaken (addrs : list addr) n m :
  (n <= m)%nat -> Forall (fun a => (a < n)%nat) addrs ->
  Forall (fun a => (a < m)%nat) addrs.
Proof.
  intros Hle Hall. eapply Forall_impl; [exact Hall|].
  intros a Ha. simpl in Ha. lia.
Qed.

Lemma fresh_not_in (addrs : list addr) n :
  Forall (fun a => (a < n)%nat) addrs -> n ∉ addrs.
Proof.
  intros Hall Hin. rewrite Forall_forall in Hall.
  specialize (Hall n Hin). lia.
Qed.

Lemma values_alloc (h : Heap) n addrs :
  Forall (fun a => (a < length h)%nat) addrs ->
  get_value (h ++ [n]) <$> addrs = get_value h <$> addrs.
Proof.
  induction 1 as [|a addrs Ha _ IH]; [done|].
  rewrite !fmap_cons. by rewrite get_value_alloc_old, IH.
Qed.

Lemma values_set_next (h : Heap) t x (addrs : list addr) :
  get_value (set_next h t x) <$> addrs = get_value h <$> addrs.
Proof.
  induction addrs as [|a addrs IH]; [done|].
  rewrite !fmap_cons. by rewrite get_value_set_next, IH.
Qed.

(** [push] appends: the data model is kept and the value comes last. *)
Lemma represents_addToEnd l addrs vs item :
  represents l addrs vs ->
  represents (addToEnd l item) (addrs ++ [length (heap l)]) (vs ++ [item]).
Proof.
  intros Hrep. pose proof Hrep as [Hchain Hnodup Hclosed Hvalues Htail Hsize].
  pose proof (fresh_not_in _ _ Hclosed) as Hfresh.
  unfold addToEnd. destruct (tail l) as [t|] eqn:Ht; simpl.
  - symmetry in Htail. apply last_Some in Htail as [pre ->].
    assert (Hlt : (t < length (heap l))%nat).
    { rewrite Forall_app, Forall_singleton in Hclosed. apply Hclosed. }
    set (n := mkNode Null (Some item)).
    split; simpl.
    + apply chain_from_link_last.
      * by apply chain_from_alloc.
      * done.
      * rewrite length_snoc. lia.
      * by rewrite get_next_alloc_new.
      * lia.
      * by apply not_elem_of_app in Hfresh as [? _].
    + apply NoDup_app. split_and!; [done| |apply NoDup_singleton].
      intros a Ha ->%list_elem_of_singleton. by apply Hfresh.
    + rewrite length_set_next, length_snoc. apply Forall_app. split.
      * eapply Forall_lt_weaken; [|exact Hclosed]. lia.
      * apply Forall_singleton. lia.
    + rewrite (fmap_app _ (pre ++ [t])), (fmap_app _ vs).
      rewrite !values_set_next, values_alloc by done.
      by rewrite Hvalues, fmap_cons, get_value_alloc_new.
    + by rewrite last_snoc.
    + rewrite !length_app in *. simpl in *. lia.
  - apply (represents_nil_tail _ _ _ Hrep) in Ht as ->.
    destruct vs; [|done]. simpl in *.
    split; simpl.
    + split; [done|]. by rewrite get_next_alloc_new.
    + apply NoDup_singleton.
    + apply Forall_singleton. rewrite length_snoc. lia.
    + by rewrite get_value_alloc_new.
    + done.
    + lia.
Qed.

(** [unshift] prepends: the data model is kept and the value comes first. *)
Lemma represents_addToFront l addrs vs item :
  represents l addrs vs ->
  represents (addToFront l item) (length (heap l) :: addrs) (item :: vs).
Proof.
  intros Hrep. pose proof Hrep as [Hchain Hnodup Hclosed Hvalues Htail Hsize].
  pose proof (fresh_not_in _ _ Hclosed) as Hfresh.
  unfold addToFront. destruct (tail l) as [t|] eqn:Ht; simpl.
  - split; simpl.
    + split; [done|]. rewrite get_next_alloc_new. simpl.
      by apply chain_from_alloc.
    + by apply NoDup_cons.
    + rewrite length_snoc. apply Forall_cons. split; [lia|].
      eapply Forall_lt_weaken; [|exact Hclosed]. lia.
    + rewrite get_value_alloc_new, values_alloc by done. simpl.
      by rewrite Hvalues.
    + rewrite Htail. destruct addrs as [|a addrs]; [done|].
      by rewrite last_cons_cons.
    + lia.
  - apply (represents_nil_tail _ _ _ Hrep) in Ht as ->.
    destruct vs; [|done]. simpl in *.
    split; simpl.
    + split; [done|]. by rewrite get_next_alloc_new.
    + apply NoDup_singleton.
    + apply Forall_singleton. rewrite length_snoc. lia.
    + by rewrite get_value_alloc_new.
    + done.
    + lia.
Qed.

Lemma represents_fold_addToEnd items :
  forall l addrs vs, represents l addrs vs ->
  exists addrs', represents (fold_left addToEnd items l) addrs' (vs ++ items).
Proof.
  induction items as [|item items IH]; intros l addrs vs Hrep; simpl.
  - exists addrs. by rewrite app_nil_r.
  - destruct (IH _ _ _ (represents_addToEnd _ _ _ item Hrep)) as [addrs' Hrep'].
    exists addrs'. by rewrite <- app_assoc in Hrep'.
Qed.

(** Construction from a sequence keeps the order of the values. *)
Lemma represents_constructor_array vs :
  exists addrs, represents (constructor (Array vs)) addrs vs.
Proof.
  apply (represents_fold_addToEnd vs empty [] []), represents_empty.
Qed.

Lemma chain_from_values (h : Heap) addrs :
  forall r, chain_from h r addrs ->
  chain_values h r (get_value h <$> addrs).
Proof.
  induction addrs as [|a addrs IH]; intros r; simpl.
  - intros ->. by constructor.
  - intros [-> Hchain]. constructor. by apply IH.
Qed.

Lemma represents_toArray l addrs vs fuel :
  represents l addrs vs -> (length vs <= fuel)%nat ->
  toArray fuel l = Some (Some <$> vs).
Proof.
  intros Hrep Hfuel. unfold toArray.
  pose proof (chain_from_values _ _ _ (rep_chain _ _ _ Hrep)) as Hvs.
  rewrite (rep_values _ _ _ Hrep) in Hvs.
  rewrite (toArray_loop_chain _ _ _ Hvs); [done|]. by rewrite length_fmap.
Qed.

Lemma successor_steps_chain (h : Heap) addrs :
  forall r k a, chain_from h r addrs -> addrs !! k = Some a ->
  successor_steps h k r = Obj a.
Proof.
  induction addrs as [|b addrs IH]; intros r k a; simpl; [done|].
  intros [-> Hchain]. destruct k as [|k]; simpl.
  - by intros [= ->].
  - by apply IH.
Qed.

Lemma chain_from_last_next (h : Heap) pre t :
  forall r, chain_from h r (pre ++ [t]) -> get_next h t = Null.
Proof.
  induction pre as [|a pre IH]; intros r; simpl.
  - by intros [_ ?].
  - intros [_ Hchain]. by apply (IH _ Hchain).
Qed.

(** The data model implies the invariants of the specification. *)
Lemma represents_invariant l addrs vs : represents l addrs vs -> invariant l.
Proof.
  intros [Hchain Hnodup Hclosed Hvalues Htail Hsize]. unfold invariant.
  destruct addrs as [|t pre _] using rev_ind.
  - simpl in *. rewrite Hchain, Htail, Hsize. by split_and!.
  - rewrite last_snoc in Htail. rewrite length_app in Hsize. simpl in Hsize.
    assert (Hhead : head l <> Null).
    { destruct pre; simpl in Hchain; destruct Hchain as [-> _]; done. }
    split_and!.
    + split; [lia|done].
    + split; [done|]. rewrite Htail. done.
    + intros _. exists t. split_and!; [|done|].
      * apply (successor_steps_chain _ _ _ _ _ Hchain).
        replace (Z.to_nat (size l - 1)) with (length pre) by lia.
        by rewrite list_lookup_middle.
      * by apply (chain_from_last_next _ _ _ _ Hchain).
Qed.

(** On such a list the count is the number of values [toArray] returns. *)
Lemma represents_count l addrs vs fuel :
  represents l addrs vs -> (length vs <= fuel)%nat ->
  exists out, toArray fuel l = Some out /\ size l = Z.of_nat (length out).
Proof.
  intros Hrep Hfuel. exists (Some <$> vs).
  split; [by apply (represents_toArray l addrs)|].
  rewrite (rep_size _ _ _ Hrep), length_fmap.
  by rewrite <- (length_fmap Some vs), <- (rep_values _ _ _ Hrep), length_fmap.
Qed.

(** ** [pop] on lists that satisfy the data model *)

Lemma chain_from_cut (h : Heap) a post pre :
  forall r, chain_from h r (pre ++ a :: post) -> NoDup (pre ++ a :: post) ->
  (a < length h)%nat ->
  chain_from (set_next h a Null) r (pre ++ [a]).
Proof.
  induction pre as [|b pre IH]; intros r; simpl.
  - intros [-> _] _ Ha. split; [done|]. by rewrite get_next_set_next_eq.
  - intros [-> Hchain] [Hnotin Hnodup]%NoDup_cons Ha. split; [done|].
    apply not_elem_of_app in Hnotin as [_ Hat].
    rewrite get_next_set_next_ne
      by (intros ->; apply Hat; apply elem_of_cons; by left).
    by apply IH.
Qed.

(** With three or more elements [pop] returns the last value but keeps
    only the elements before the last two, while [size] drops by one. *)
Lemma pop_three_or_more l addrs ws x y z :
  represents l addrs (ws ++ [x; y; z]) ->
  exists l',
    pop l = Return (Some z, l') /\
    size l' = size l - 1 /\
    forall fuel, (length ws < fuel)%nat ->
      toArray fuel l' = Some (Some <$> ws ++ [x]).
Proof.
  intros [Hchain Hnodup Hclosed Hvalues Htail Hsize].
  rewrite fmap_app in Hvalues.
  apply fmap_app_inv in Hvalues as (pre & rest & Hpre & Hrest & ->).
  symmetry in Hrest. rewrite !fmap_cons in Hrest.
  apply fmap_cons_inv in Hrest as (a & rest1 & Ha & Hrest & ->).
  symmetry in Hrest.
  apply fmap_cons_inv in Hrest as (b & rest2 & Hb & Hrest & ->).
  symmetry in Hrest.
  apply fmap_cons_inv in Hrest as (c & rest3 & Hc & Hrest & ->).
  symmetry in Hrest. apply fmap_nil_inv in Hrest as ->.
  assert (Hlen : length (pre ++ [a; b; c]) = (length pre + 3)%nat)
    by (rewrite length_app; simpl; lia).
  assert (Hhead : exists p, head l = Obj p).
  { destruct pre; simpl in Hchain; destruct Hchain as [-> _]; eauto. }
  destruct Hhead as [p Hhead].
  assert (Hnode : nodeAt l (size l - 2) = Return (Obj a)).
  { rewrite (nodeAt_chain _ _ _ Hchain). unfold nodeAt_answer.
    rewrite Hsize, Hlen.
    destruct (Z.ltb_spec (Z.of_nat (length pre + 3) - 2) 0); [lia|].
    destruct (Z.eqb_spec (Z.of_nat (length pre + 3) - 2) 0); [lia|].
    destruct (Nat.leb_spec 2 (length pre + 3)); [|lia].
    replace (Z.to_nat (Z.of_nat (length pre + 3) - 2 - 1)) with (length pre)
      by lia.
    by rewrite list_lookup_middle. }
  assert (Hlast : tail l = Some c).
  { by rewrite Htail, last_app_cons. }
  assert (Halt : (a < length (heap l))%nat).
  { rewrite Forall_app, Forall_cons in Hclosed. apply Hclosed. }
  exists (mkList (set_next (heap l) a Null) (head l) (Some a) (size l - 1)).
  split_and!.
  - unfold pop. rewrite Hnode, Hhead. simpl. by rewrite Hlast, <- Hc.
  - done.
  - intros fuel Hfuel. unfold toArray. simpl.
    pose proof (chain_from_cut _ a [b; c] pre _ Hchain Hnodup Halt) as Hcut.
    apply chain_from_values in Hcut.
    rewrite values_set_next, fmap_app, <- Hpre in Hcut. simpl in Hcut.
    rewrite <- Ha in Hcut. rewrite fmap_app.
    rewrite (toArray_loop_chain _ _ _ Hcut); [done|].
    rewrite length_app, length_fmap. simpl. lia.
Qed.

(** ** The bounded loops never run out of fuel *)

Lemma nodeAt_loop_fuel fuel (h : Heap) index :
  forall c i, (Z.to_nat (index - i) <= fuel)%nat ->
  nodeAt_loop (S fuel) h index c i = nodeAt_loop fuel h index c i.
Proof.
  induction fuel as [|fuel IH]; intros c i Hfuel.
  - simpl. destruct (get_next h c); try done.
    by destruct (Z.ltb_spec i index); [lia|].
  - change (nodeAt_loop (S (S fuel)) h index c i) with
      (match get_next h c with
       | Obj nxt =>
           if i <? index then nodeAt_loop (S fuel) h index nxt (i + 1)
           else (c, i)
       | _ => (c, i)
       end).
    simpl. destruct (get_next h c) as [| |nxt]; try done.
    destruct (Z.ltb_spec i index); [|done]. apply IH. lia.
Qed.

Lemma at_loop_fuel fuel (h : Heap) index :
  forall r i, (Z.to_nat (index - i) <= fuel)%nat ->
  at_loop (S fuel) h index r i = at_loop fuel h index r i.
Proof.
  induction fuel as [|fuel IH]; intros r i Hfuel.
  - simpl. by destruct (Z.ltb_spec i index); [lia|].
  - change (at_loop (S (S fuel)) h index r i) with
      (if i <? index then
         match r with
         | Obj a => at_loop (S fuel) h index (get_next h a) (i + 1)
         | _ => r
         end
       else r).
    simpl. destruct (Z.ltb_spec i index); [|done].
    destruct r as [| |a]; try done. apply IH. lia.
Qed.

(** ** [clear] and [search] return on every list the class builds *)

Lemma chain_values_deleteNode (h : Heap) a r vs :
  chain_values h r vs ->
  exists vs', chain_values (deleteNode h a) r vs' /\
              (length vs' <= length vs)%nat.
Proof.
  induction 1 as [r Hr|b vs _ (vs' & Hvs' & Hlen)].
  - exists []. split; [by constructor|done].
  - destruct (get_next_deleteNode h a b) as [Hsame|Hcut].
    + exists (get_value (deleteNode h a) b :: vs'). split; [|simpl; lia].
      constructor. by rewrite Hsame.
    + exists [get_value (deleteNode h a) b]. split; [|simpl; lia].
      constructor. rewrite Hcut. by constructor.
Qed.

Lemma clear_loop_returns n :
  forall (h : Heap) r vs fuel,
    chain_values h r vs -> (length vs <= n)%nat -> (n <= fuel)%nat ->
    exists h', clear_loop fuel h r = Some h'.
Proof.
  induction n as [|n IH]; intros h r vs fuel Hvs Hlen Hfuel;
    inversion Hvs as [? Hr|temp ws Hws]; subst.
  - destruct r; try discriminate; destruct fuel; simpl; eauto.
  - simpl in Hlen. lia.
  - destruct r; try discriminate; destruct fuel; simpl; eauto.
  - destruct fuel as [|fuel]; [lia|]. simpl.
    destruct (chain_values_deleteNode h temp _ _ Hws) as (ws' & Hws' & Hle).
    apply (IH _ _ ws'); [done|simpl in Hlen; lia|lia].
Qed.

Lemma clear_returns l :
  reachable l ->
  exists n, forall fuel, (n <= fuel)%nat -> exists l', clear fuel l = Some l'.
Proof.
  intros Hreach.
  destruct (finite_chain_values _ _ (reachable_finite l Hreach)) as [vs Hvs].
  exists (length vs). intros fuel Hfuel. unfold clear.
  destruct (clear_loop_returns (length vs) _ _ vs fuel Hvs) as [h' ->];
    eauto.
Qed.

Lemma search_returns l v :
  reachable l ->
  exists n, forall fuel, (n <= fuel)%nat -> exists i, search fuel l v = Some i.
Proof.
  intros Hreach.
  destruct (finite_chain_values _ _ (reachable_finite l Hreach)) as [vs Hvs].
  exists (length vs). intros fuel Hfuel. unfold search.
  rewrite (search_loop_chain _ v _ _ Hvs) by done. eauto.
Qed.

Lemma reachable_from iterableValue : reachable (from iterableValue).
Proof.
  unfold from.
  assert (Hfold : forall vs l, reachable l -> reachable (fold_left push vs l)).
  { induction vs as [|v vs IH]; intros l Hl; simpl; [done|].
    by apply IH, reach_push. }
  apply Hfold, reach_constructor.
Qed.

(** ** Iteration and search *)

(** C10: for every list the class can build, the values produced by the
    iteration protocol are the array returned by [toArray]: both loops come
    to an end and give the values met from [head] in chain order. *)
Theorem iterator_agrees_with_toArray l :
  reachable l ->
  exists vs,
    chain_values (heap l) (head l) vs /\
    forall fuel, (length vs < fuel)%nat ->
      toArray fuel l = Some vs /\ iterate fuel l = Some vs.
Proof.
  intros Hreach.
  destruct (finite_chain_values _ _ (reachable_finite l Hreach)) as [vs Hvs].
  exists vs. split; [done|]. intros fuel Hfuel. split.
  - unfold toArray. by rewrite (toArray_loop_chain _ _ _ Hvs) by lia.
  - unfold iterate. by apply (drain_chain l vs (head l)).
Qed.




(** * Further properties of the methods *)

(** ** What a list that satisfies the data model shows *)

Lemma represents_head_value l a addrs v vs :
  represents l (a :: addrs) (v :: vs) ->
  head l = Obj a /\ get_value (heap l) a = Some v.
Proof.
  intros [Hchain _ _ Hvalues _ _]. simpl in Hchain.
  rewrite !fmap_cons in Hvalues. injection Hvalues as Hv _.
  by destruct Hchain as [-> _].
Qed.

Lemma represents_same_length l addrs vs :
  represents l addrs vs -> length addrs = length vs.
Proof.
  intros Hrep.
  by rewrite <- (length_fmap Some vs), <- (rep_values _ _ _ Hrep), length_fmap.
Qed.

Lemma represents_last_value l addrs vs t :
  represents l addrs vs -> tail l = Some t ->
  exists z, list.last vs = Some z /\ get_value (heap l) t = Some z.
Proof.
  intros Hrep Htail. pose proof (rep_values _ _ _ Hrep) as Hvalues.
  rewrite (rep_tail _ _ _ Hrep) in Htail.
  apply last_Some in Htail as [pre ->].
  rewrite fmap_app in Hvalues. simpl in Hvalues.
  destruct vs as [|z ws _] using rev_ind.
  { by destruct pre. }
  rewrite fmap_app in Hvalues. simpl in Hvalues.
  apply app_inj_tail in Hvalues as [_ Hz].
  exists z. by rewrite last_snoc.
Qed.

(** X1: on a list that satisfies the data model, [toArray] and iteration
    return exactly the values in order, [length] is their number, and the
    invariants of the data model hold. *)
Theorem data_model_observations l addrs vs fuel :
  represents l addrs vs -> (length vs < fuel)%nat ->
  toArray fuel l = Some (Some <$> vs) /\
  iterate fuel l = Some (Some <$> vs) /\
  get_length l = Z.of_nat (length vs) /\
  invariant l.
Proof.
  intros Hrep Hfuel.
  pose proof (chain_from_values _ _ _ (rep_chain _ _ _ Hrep)) as Hvs.
  rewrite (rep_values _ _ _ Hrep) in Hvs.
  split_and!.
  - apply (represents_toArray l addrs); [done|lia].
  - unfold iterate.
    apply (drain_chain l _ (head l)); [done|done|done|].
    by rewrite length_fmap.
  - unfold get_length.
    by rewrite (rep_size _ _ _ Hrep), (represents_same_length _ _ _ Hrep).
  - by apply (represents_invariant l addrs vs).
Qed.

(** X2: on a list that satisfies the data model, [fist] and [last] answer
    the first and the last value ([null] on the empty list), and [isEmpy]
    answers whether there is no value. *)
Theorem queries_on_data_model l addrs vs :
  represents l addrs vs ->
  fist l = list.head vs /\
  last l = list.last vs /\
  (isEmpy l = true <-> vs = []).
Proof.
  intros Hrep. pose proof (represents_same_length _ _ _ Hrep) as Hlen.
  split_and!.
  - destruct addrs as [|a addrs], vs as [|v vs]; try done.
    + unfold fist. by rewrite (rep_chain _ _ _ Hrep).
    + destruct (represents_head_value _ _ _ _ _ Hrep) as [Hhead Hv].
      unfold fist. by rewrite Hhead.
  - unfold last. destruct (tail l) as [t|] eqn:Htail.
    + by destruct (represents_last_value _ _ _ _ Hrep Htail) as (z & -> & ->).
    + apply (represents_nil_tail _ _ _ Hrep) in Htail as ->.
      by destruct vs.
  - unfold isEmpy. rewrite (rep_size _ _ _ Hrep), Hlen.
    destruct vs; simpl; split; try done; lia.
Qed.

(** ** Construction and insertion at the ends *)

(** X3: whatever the argument, the constructor yields a list that satisfies
    the data model; it holds the elements of the array (also when the array
    was passed as a single value), or the single value when that value is
    truthy and not an array, and nothing otherwise. *)
Theorem constructor_data_model arg :
  exists addrs, represents (constructor arg) addrs (ctor_values arg).
Proof.
  destruct arg as [|v|vs]; simpl.
  - exists []. apply represents_empty.
  - destruct (truthy v); simpl.
    + destruct (array_items v) as [items|].
      * apply (represents_fold_addToEnd items empty [] []), represents_empty.
      * eexists. apply (represents_addToEnd empty [] [] v represents_empty).
    + exists []. apply represents_empty.
  - apply represents_constructor_array.
Qed.

(** X4: [from] builds a list that satisfies the data model and holds the
    values of the iterable in their order. *)
Theorem from_data_model iterableValue :
  exists addrs, represents (from iterableValue) addrs iterableValue.
Proof.
  apply (represents_fold_addToEnd iterableValue empty [] []),
    represents_empty.
Qed.

(** X5: [push] on a list that satisfies the data model appends the value:
    the result satisfies the data model with the value in last position. *)
Theorem push_appends l addrs vs v :
  represents l addrs vs ->
  exists addrs', represents (push l v) addrs' (vs ++ [v]).
Proof.
  intros Hrep. eexists. by apply represents_addToEnd.
Qed.

(** X6: [unshift] on a list that satisfies the data model prepends the
    value: the result satisfies the data model with the value in first
    position. *)
Theorem unshift_prepends l addrs vs v :
  represents l addrs vs ->
  exists addrs', represents (unshift l v) addrs' (v :: vs).
Proof.
  intros Hrep. eexists. by apply represents_addToFront.
Qed.

(** X7: any sequence of [push] and [unshift] calls on the empty list gives
    a list that satisfies the data model and holds the values in the order
    the calls imply. *)
Theorem insertions_compose ops :
  exists addrs,
    represents (fold_left apply_insertion ops empty) addrs
               (fold_left insertion_model ops []).
Proof.
  assert (Hgen : forall l addrs vs, represents l addrs vs ->
            exists addrs',
              represents (fold_left apply_insertion ops l) addrs'
                         (fold_left insertion_model ops vs)).
  { induction ops as [|op ops IH]; intros l addrs vs Hrep; simpl; [eauto|].
    destruct op as [v|v]; simpl.
    - apply (IH _ _ _ (represents_addToEnd _ _ _ v Hrep)).
    - apply (IH _ _ _ (represents_addToFront _ _ _ v Hrep)). }
  apply (Hgen empty [] []), represents_empty.
Qed.

(** ** Removal at the ends *)

Lemma pop_short_represents l addrs vs z :
  represents l addrs (vs ++ [z]) -> (length vs <= 1)%nat ->
  exists l' addrs', pop l = Return (Some z, l') /\ represents l' addrs' vs.
Proof.
  intros Hrep Hshort.
  pose proof (represents_same_length _ _ _ Hrep) as Hlen.
  pose proof Hrep as [Hchain Hnodup Hclosed Hvalues Htail Hsize].
  destruct vs as [|x [|? ?]]; [| |simpl in Hshort; lia].
  - destruct addrs as [|a [|? ?]]; try done.
    destruct (represents_head_value _ _ _ _ _ Hrep) as [Hhead Hv].
    exists (mkList (heap l) Null None (size l - 1)), [].
    split.
    + unfold pop, nodeAt. rewrite Hhead, Hsize. simpl. by rewrite Hv.
    + split; simpl; try done; [constructor|]. rewrite Hsize. simpl. lia.
  - destruct addrs as [|a [|b [|? ?]]]; try done.
    destruct (represents_head_value _ _ _ _ _ Hrep) as [Hhead Hv].
    simpl in Hchain, Htail. destruct Hchain as (_ & Hnext & Hend).
    rewrite !fmap_cons in Hvalues. injection Hvalues as _ Hz.
    assert (Ha : (a < length (heap l))%nat).
    { by apply Forall_cons in Hclosed as [? _]. }
    exists (mkList (set_next (heap l) a Null) (head l) (Some a) (size l - 1)),
      [a].
    split.
    + unfold pop, nodeAt. rewrite Hhead, Hsize, Htail. simpl.
      by rewrite Hz.
    + split; simpl.
      * split; [done|]. by rewrite get_next_set_next_eq.
      * apply NoDup_singleton.
      * apply Forall_singleton. by rewrite length_set_next.
      * by rewrite get_value_set_next, Hv.
      * done.
      * rewrite Hsize. simpl. lia.
Qed.

(** X8: on a list of one or two values that satisfies the data model,
    [pop] returns the last value and leaves a list that satisfies the data
    model with the remaining values. *)
Theorem pop_short_list l addrs vs z :
  represents l addrs (vs ++ [z]) -> (length vs <= 1)%nat ->
  exists l' addrs', pop l = Return (Some z, l') /\ represents l' addrs' vs.
Proof. apply pop_short_represents. Qed.

(** X9: on a list of three or more values that satisfies the data model,
    [pop] returns the last value and lowers [size] by one, but the chain
    keeps only the values before the last two. *)
Theorem pop_long_list l addrs ws x y z :
  represents l addrs (ws ++ [x; y; z]) ->
  exists l',
    pop l = Return (Some z, l') /\
    size l' = size l - 1 /\
    forall fuel, (length ws < fuel)%nat ->
      toArray fuel l' = Some (Some <$> ws ++ [x]).
Proof. apply pop_three_or_more. Qed.

Lemma shift_represents l addrs x vs :
  represents l addrs (x :: vs) ->
  exists l',
    shift l = Return (Some x, l') /\
    size l' = size l - 1 /\
    head l' = Null /\
    (tail l' = None <-> vs <> []) /\
    forall fuel, toArray fuel l' = Some [].
Proof.
  intros Hrep.
  pose proof (represents_same_length _ _ _ Hrep) as Hlen.
  destruct addrs as [|a addrs]; [done|].
  destruct (represents_head_value _ _ _ _ _ Hrep) as [Hhead Hv].
  pose proof Hrep as [Hchain _ _ _ Htail _].
  simpl in Hchain. destruct Hchain as [_ Hchain].
  unfold shift. rewrite Hhead, Hv.
  destruct addrs as [|b addrs]; simpl in Hchain.
  - rewrite Hchain. simpl. eexists. split; [reflexivity|]. simpl.
    destruct vs; [|done]. rewrite Htail.
    split_and!; try done. by destruct fuel.
  - destruct Hchain as [-> _]. simpl. eexists. split; [reflexivity|]. simpl.
    destruct vs; [done|].
    split_and!; try done. by destruct fuel.
Qed.


(** X23: on a list of at most one value that satisfies the data model,
    [push] followed by [pop] returns the pushed value and leaves a list
    that satisfies the data model with the values it had before. *)
Theorem push_then_pop_short l addrs vs v :
  represents l addrs vs -> (length vs <= 1)%nat ->
  exists l' addrs',
    pop (push l v) = Return (Some v, l') /\ represents l' addrs' vs.
Proof.
  intros Hrep Hshort.
  apply (pop_short_represents _ (addrs ++ [length (heap l)])); [|done].
  by apply represents_addToEnd.
Qed.

(** X24: on a list that satisfies the data model, [unshift] followed by
    [shift] returns the value put in front; afterwards the chain is empty,
    so the values the list had before are no longer returned. *)
Theorem unshift_then_shift l addrs vs v :
  represents l addrs vs ->
  exists l',
    shift (unshift l v) = Return (Some v, l') /\
    size l' = size l /\
    forall fuel, toArray fuel l' = Some [].
Proof.
  intros Hrep.
  destruct (shift_represents _ _ v vs (represents_addToFront _ _ _ v Hrep))
    as (l' & Hshift & Hsize & _ & _ & Harr).
  exists l'. split_and!; [done| |done].
  rewrite Hsize. unfold unshift, addToFront.
  destruct (tail l); simpl; lia.
Qed.

(** ** Indexed access *)

Lemma represents_lookup l addrs vs k :
  represents l addrs vs ->
  match addrs !! k with
  | Some a => exists v, vs !! k = Some v /\ get_value (heap l) a = Some v
  | None => vs !! k = None
  end.
Proof.
  intros Hrep. pose proof (rep_values _ _ _ Hrep) as Hvalues.
  apply (f_equal (fun xs => xs !! k)) in Hvalues.
  rewrite !list_lookup_fmap in Hvalues.
  destruct (addrs !! k) as [a|], (vs !! k) as [v|]; simpl in Hvalues;
    try done.
  exists v. split; [done|]. by injection Hvalues.
Qed.

Lemma at_represents l addrs vs index :
  represents l addrs vs ->
  at_ l index =
  match vs !! Z.to_nat index with
  | Some v => Return (Some v)
  | None => Throw (AtNoItem index)
  end.
Proof.
  intros Hrep. pose proof (represents_lookup l addrs vs (Z.to_nat index) Hrep)
    as Hlookup.
  destruct (Z.lt_ge_cases index 0) as [Hneg|Hnonneg].
  - replace (Z.to_nat index) with O in * by lia.
    unfold at_. replace (Z.to_nat index) with O by lia. simpl.
    destruct addrs as [|a addrs]; simpl in Hlookup.
    + rewrite Hlookup. by rewrite (rep_chain _ _ _ Hrep).
    + destruct Hlookup as (v & -> & Hv).
      pose proof (rep_chain _ _ _ Hrep) as [-> _]. by rewrite Hv.
  - rewrite (at_chain l addrs index (rep_chain _ _ _ Hrep) Hnonneg).
    destruct (addrs !! Z.to_nat index) as [a|].
    + by destruct Hlookup as (v & -> & ->).
    + by rewrite Hlookup.
Qed.

(** X11: on a list that satisfies the data model, [at] returns the value
    at the index and throws past the last value; a negative index is
    treated as index [0]. *)
Theorem at_on_data_model l addrs vs index :
  represents l addrs vs ->
  at_ l index =
  match vs !! Z.to_nat index with
  | Some v => Return (Some v)
  | None => Throw (AtNoItem index)
  end.
Proof. apply at_represents. Qed.

(** X12: on a list that satisfies the data model, [nodeAt] answers [null]
    for a negative index and the first node for index [0]; for an index
    from [1] on it answers the node one position before the index, and
    [null] when the list has fewer than two nodes or the index exceeds the
    number of nodes. *)
Theorem nodeAt_on_data_model l addrs vs index :
  represents l addrs vs ->
  nodeAt l index = Return (nodeAt_answer addrs index).
Proof.
  intros Hrep. apply nodeAt_chain, (rep_chain _ _ _ Hrep).
Qed.

(** X13: on an empty list that satisfies the data model every removal and
    every indexed operation throws its own error, whatever the index. *)
Theorem empty_list_throws l addrs index v :
  represents l addrs [] ->
  pop l = Throw PopEmpty /\
  shift l = Throw ShiftEmpty /\
  at_ l index = Throw (AtNoItem index) /\
  addAfter l index v = Throw (AddAfterNotExist index) /\
  removeAt l index = Throw (RemoveAtNotExist index).
Proof.
  intros Hrep.
  pose proof (represents_same_length _ _ _ Hrep) as Hlen.
  destruct addrs; [|done].
  pose proof (rep_chain _ _ _ Hrep) as Hhead. simpl in Hhead.
  assert (Hnode : forall i, nodeAt l i = Return Null).
  { intros i. rewrite (nodeAt_chain l [] i) by done. unfold nodeAt_answer.
    by destruct (i <? 0), (i =? 0). }
  split_and!.
  - unfold pop. by rewrite Hhead.
  - unfold shift. by rewrite Hhead.
  - by rewrite (at_represents l [] [] index Hrep).
  - unfold addAfter. by rewrite Hnode.
  - unfold removeAt. by rewrite Hnode.
Qed.

(** ** Indexed insertion and removal *)

Lemma get_next_deleteNode_ne (h : Heap) a b :
  a <> b -> get_next (deleteNode h a) b = get_next h b.
Proof.
  intros Hne. unfold get_next, deleteNode. by rewrite list_lookup_insert_ne.
Qed.

Lemma get_value_deleteNode_ne (h : Heap) a b :
  a <> b -> get_value (deleteNode h a) b = get_value h b.
Proof.
  intros Hne. unfold get_value, deleteNode. by rewrite list_lookup_insert_ne.
Qed.

Lemma chain_from_deleteNode_other (h : Heap) b addrs :
  forall r, chain_from h r addrs -> b ∉ addrs ->
  chain_from (deleteNode h b) r addrs.
Proof.
  induction addrs as [|a addrs IH]; intros r; simpl; [done|].
  intros [-> Hchain] [Hne Hnotin]%not_elem_of_cons. split; [done|].
  rewrite get_next_deleteNode_ne by done. by apply IH.
Qed.

Lemma values_deleteNode_other (h : Heap) b (addrs : list addr) :
  b ∉ addrs -> get_value (deleteNode h b) <$> addrs = get_value h <$> addrs.
Proof.
  induction addrs as [|a addrs IH]; [done|].
  intros [Hne Hnotin]%not_elem_of_cons. rewrite !fmap_cons.
  by rewrite get_value_deleteNode_ne, IH.
Qed.

(** Linking a fresh node behind the node [a] of a chain. *)
Lemma chain_from_insert (h : Heap) a v post pre :
  forall r, chain_from h r (pre ++ a :: post) ->
  NoDup (pre ++ a :: post) ->
  Forall (fun c => (c < length h)%nat) (pre ++ a :: post) ->
  chain_from (set_next (h ++ [mkNode (get_next h a) v]) a (Obj (length h)))
             r (pre ++ a :: length h :: post).
Proof.
  induction pre as [|b pre IH]; intros r; simpl.
  - intros [-> Hpost] [Hnotin _]%NoDup_cons [Ha Hclosed]%Forall_cons.
    split; [done|]. split.
    + rewrite get_next_set_next_eq; [done|]. rewrite length_snoc. lia.
    + rewrite get_next_set_next_ne by lia. rewrite get_next_alloc_new. simpl.
      apply chain_from_set_next_other; [|done]. by apply chain_from_alloc.
  - intros [-> Hchain] [Hnotin Hnodup]%NoDup_cons [Hb Hclosed]%Forall_cons.
    split; [done|].
    apply not_elem_of_app in Hnotin as [_ [Hne _]%not_elem_of_cons].
    rewrite get_next_set_next_ne by done.
    rewrite get_next_alloc_old by done. by apply IH.
Qed.

Lemma chain_from_middle (h : Heap) a b post pre :
  forall r, chain_from h r (pre ++ a :: b :: post) -> get_next h a = Obj b.
Proof.
  induction pre as [|c pre IH]; intros r; simpl.
  - by intros (_ & ? & _).
  - intros [_ Hchain]. by apply (IH _ Hchain).
Qed.

(** Unlinking the node [b] that follows the node [a] of a chain. *)
Lemma chain_from_bypass (h : Heap) a b post pre :
  forall r, chain_from h r (pre ++ a :: b :: post) ->
  NoDup (pre ++ a :: b :: post) -> (a < length h)%nat ->
  chain_from (deleteNode (set_next h a (get_next h b)) b) r
             (pre ++ a :: post).
Proof.
  induction pre as [|c pre IH]; intros r; simpl.
  - intros (-> & _ & Hpost) [Hab [Hb _]%NoDup_cons]%NoDup_cons Ha.
    apply not_elem_of_cons in Hab as [Hne Ha_post].
    split; [done|].
    rewrite get_next_deleteNode_ne by done.
    rewrite get_next_set_next_eq by done.
    apply chain_from_deleteNode_other; [|done].
    by apply chain_from_set_next_other.
  - intros [-> Hchain] [Hnotin Hnodup]%NoDup_cons Ha. split; [done|].
    apply not_elem_of_app in Hnotin as [_ [Hca Hrest]%not_elem_of_cons].
    apply not_elem_of_cons in Hrest as [Hcb _].
    rewrite get_next_deleteNode_ne by done.
    rewrite get_next_set_next_ne by done. by apply IH.
Qed.

Lemma last_after_middle {A} (pre : list A) a c post :
  post <> [] -> list.last (pre ++ a :: c :: post) = list.last (pre ++ a :: post).
Proof.
  intros Hpost. rewrite !last_app_cons.
  destruct post as [|d post]; [done|]. by rewrite !last_cons_cons.
Qed.

Lemma addAfter_represents l addrs ws1 x ws2 index v :
  represents l addrs (ws1 ++ x :: ws2) ->
  (index = 0 /\ ws1 = []) \/
  (index = Z.of_nat (length ws1) + 1 /\ (ws1 <> [] \/ ws2 <> [])) ->
  exists l',
    addAfter l index v = Return l' /\
    size l' = size l + 1 /\
    (forall fuel, (length ws1 + length ws2 + 2 <= fuel)%nat ->
       toArray fuel l' = Some (Some <$> ws1 ++ x :: v :: ws2)) /\
    (ws2 <> [] -> exists addrs', represents l' addrs' (ws1 ++ x :: v :: ws2)) /\
    tail l' = tail l /\
    (ws2 = [] -> last l' = Some x).
Proof.
  intros [Hchain Hnodup Hclosed Hvalues Htail Hsize] Hindex.
  rewrite fmap_app in Hvalues.
  apply fmap_app_inv in Hvalues as (pre & rest & Hpre & Hrest & ->).
  symmetry in Hrest. rewrite fmap_cons in Hrest.
  apply fmap_cons_inv in Hrest as (a & post & Ha & Hpost & ->).
  assert (Hlen_pre : length pre = length ws1).
  { by rewrite <- (length_fmap (get_value (heap l)) pre), <- Hpre, length_fmap. }
  assert (Hlen_post : length post = length ws2).
  { by rewrite <- (length_fmap (get_value (heap l)) post), <- Hpost,
      length_fmap. }
  assert (Halt : (a < length (heap l))%nat).
  { rewrite Forall_app, Forall_cons in Hclosed. apply Hclosed. }
  assert (Hnode : nodeAt l index = Return (Obj a)).
  { rewrite (nodeAt_chain _ _ _ Hchain). unfold nodeAt_answer.
    destruct Hindex as [[-> ->]|[-> Hmore]].
    - by destruct pre.
    - destruct (Z.ltb_spec (Z.of_nat (length ws1) + 1) 0); [lia|].
      destruct (Z.eqb_spec (Z.of_nat (length ws1) + 1) 0); [lia|].
      destruct (Nat.leb_spec 2 (length (pre ++ a :: post))) as [_|Hfew].
      + replace (Z.to_nat (Z.of_nat (length ws1) + 1 - 1)) with (length pre)
          by lia.
        by rewrite list_lookup_middle.
      + rewrite length_app in Hfew.
        destruct Hmore as [Hne|Hne]; [destruct ws1|destruct ws2];
          simpl in *; (done || lia). }
  set (n := mkNode (get_next (heap l) a) (Some v)).
  set (h' := set_next (heap l ++ [n]) a (Obj (length (heap l)))).
  pose proof (chain_from_insert _ a (Some v) post pre _ Hchain Hnodup Hclosed)
    as Hchain'.
  pose proof (fresh_not_in _ _ Hclosed) as Hfresh.
  assert (Hvalues' :
    get_value h' <$> pre ++ a :: length (heap l) :: post =
    Some <$> ws1 ++ x :: v :: ws2).
  { apply Forall_app in Hclosed as [Hcl_pre [_ Hcl_post]%Forall_cons].
    rewrite !fmap_app, !fmap_cons. unfold h'.
    rewrite !values_set_next, !get_value_set_next.
    rewrite !values_alloc, get_value_alloc_old, get_value_alloc_new by done.
    by rewrite <- Hpre, <- Ha, <- Hpost. }
  exists (mkList h' (head l) (tail l) (size l + 1)).
  split_and!.
  - unfold addAfter. by rewrite Hnode.
  - done.
  - intros fuel Hfuel. unfold toArray. simpl.
    apply chain_from_values in Hchain'. fold n h' in Hchain'.
    rewrite Hvalues' in Hchain'.
    rewrite (toArray_loop_chain _ _ _ Hchain'); [done|].
    rewrite length_fmap, length_app. simpl. lia.
  - intros Hws2. exists (pre ++ a :: length (heap l) :: post).
    assert (Hpost_ne : post <> []) by (by destruct post, ws2).
    split; simpl.
    + exact Hchain'.
    + apply NoDup_app in Hnodup as (Hnd_pre & Hsep & Hnd_rest).
      apply not_elem_of_app in Hfresh as [Hf_pre Hf_rest].
      apply NoDup_cons in Hnd_rest as [Ha_post Hnd_post].
      apply not_elem_of_cons in Hf_rest as [Hf_a Hf_post].
      apply NoDup_app. split_and!; [done| |].
      * intros c Hc [->|[->|Hin]%elem_of_cons]%elem_of_cons.
        -- apply (Hsep a Hc). by left.
        -- done.
        -- apply (Hsep c Hc). by right.
      * apply NoDup_cons. split.
        -- intros [->|Hin]%elem_of_cons; [lia|done].
        -- by apply NoDup_cons.
    + unfold h'. rewrite length_set_next, length_snoc.
      apply Forall_app in Hclosed as [Hcl_pre [_ Hcl_post]%Forall_cons].
      apply Forall_app. split; [by eapply Forall_lt_weaken; [|exact Hcl_pre]; lia|].
      apply Forall_cons. split; [lia|]. apply Forall_cons. split; [lia|].
      eapply Forall_lt_weaken; [|exact Hcl_post]. lia.
    + exact Hvalues'.
    + rewrite Htail. symmetry. by apply last_after_middle.
    + rewrite Hsize, !length_app. simpl. lia.
  - done.
  - intros ->. destruct post; [|done].
    unfold last. simpl. rewrite Htail, last_snoc. unfold h'.
    by rewrite get_value_set_next, get_value_alloc_old, <- Ha.
Qed.

(** X14: on a list that satisfies the data model, [addAfter(0, v)] links
    [v] behind the first value, and [addAfter(k + 1, v)] links [v] behind
    the value at position [k] when the list has two or more values.  [size]
    grows by one and [tail] is not moved: the data model is kept unless [v]
    was linked behind the last value, and then [last] still answers the
    value [v] was linked behind. *)
Theorem addAfter_inserts l addrs ws1 x ws2 index v :
  represents l addrs (ws1 ++ x :: ws2) ->
  (index = 0 /\ ws1 = []) \/
  (index = Z.of_nat (length ws1) + 1 /\ (ws1 <> [] \/ ws2 <> [])) ->
  exists l',
    addAfter l index v = Return l' /\
    size l' = size l + 1 /\
    (forall fuel, (length ws1 + length ws2 + 2 <= fuel)%nat ->
       toArray fuel l' = Some (Some <$> ws1 ++ x :: v :: ws2)) /\
    (ws2 <> [] -> exists addrs', represents l' addrs' (ws1 ++ x :: v :: ws2)) /\
    tail l' = tail l /\
    (ws2 = [] -> last l' = Some x).
Proof. apply addAfter_represents. Qed.

(** X15: on a list of [n] values that satisfies the data model,
    [addAfter] throws for a negative index, for an index above [n], on the
    empty list, and for every index but [0] on a list of one value. *)
Theorem addAfter_throws l addrs vs index v :
  represents l addrs vs ->
  index < 0 \/ Z.of_nat (length vs) < index \/ vs = [] \/
  (length vs = 1%nat /\ index <> 0) ->
  addAfter l index v = Throw (AddAfterNotExist index).
Proof.
  intros Hrep Hindex.
  pose proof (represents_same_length _ _ _ Hrep) as Hlen.
  unfold addAfter. rewrite (nodeAt_chain _ _ _ (rep_chain _ _ _ Hrep)).
  assert (Hnull : nodeAt_answer addrs index = Null); [|by rewrite Hnull].
  unfold nodeAt_answer.
  destruct (Z.ltb_spec index 0); [done|].
  destruct (Z.eqb_spec index 0) as [->|Hpos].
  - destruct addrs as [|a addrs]; [done|].
    destruct Hindex as [?|[?|[->|[? ?]]]]; simpl in *; (done || lia).
  - destruct (Nat.leb_spec 2 (length addrs)); [|done].
    rewrite lookup_ge_None_2; [done|].
    destruct Hindex as [?|[?|[->|[? ?]]]]; simpl in *; lia.
Qed.

Lemma removeAt_represents l addrs ws1 x y ws2 index :
  represents l addrs (ws1 ++ x :: y :: ws2) ->
  (index = 1 /\ ws1 = []) \/ index = Z.of_nat (length ws1) + 2 ->
  exists l',
    removeAt l index = Return l' /\
    size l' = size l - 1 /\
    (forall fuel, (length ws1 + length ws2 + 1 <= fuel)%nat ->
       toArray fuel l' = Some (Some <$> ws1 ++ x :: ws2)) /\
    (ws2 <> [] -> exists addrs', represents l' addrs' (ws1 ++ x :: ws2)) /\
    tail l' = tail l /\
    (ws2 = [] -> last l' = None).
Proof.
  intros [Hchain Hnodup Hclosed Hvalues Htail Hsize] Hindex.
  rewrite fmap_app in Hvalues.
  apply fmap_app_inv in Hvalues as (pre & rest & Hpre & Hrest & ->).
  symmetry in Hrest. rewrite !fmap_cons in Hrest.
  apply fmap_cons_inv in Hrest as (a & rest1 & Ha & Hrest & ->).
  symmetry in Hrest.
  apply fmap_cons_inv in Hrest as (b & post & Hb & Hpost & ->).
  assert (Hlen_pre : length pre = length ws1).
  { by rewrite <- (length_fmap (get_value (heap l)) pre), <- Hpre, length_fmap. }
  assert (Hlen_post : length post = length ws2).
  { by rewrite <- (length_fmap (get_value (heap l)) post), <- Hpost,
      length_fmap. }
  assert (Halt : (a < length (heap l))%nat).
  { rewrite Forall_app, Forall_cons in Hclosed. apply Hclosed. }
  assert (Hnode : nodeAt l (index - 1) = Return (Obj a)).
  { rewrite (nodeAt_chain _ _ _ Hchain). unfold nodeAt_answer.
    destruct Hindex as [[-> ->]| ->].
    - by destruct pre.
    - destruct (Z.ltb_spec (Z.of_nat (length ws1) + 2 - 1) 0); [lia|].
      destruct (Z.eqb_spec (Z.of_nat (length ws1) + 2 - 1) 0); [lia|].
      destruct (Nat.leb_spec 2 (length (pre ++ a :: b :: post))) as [_|Hfew].
      + replace (Z.to_nat (Z.of_nat (length ws1) + 2 - 1 - 1))
          with (length pre) by lia.
        by rewrite list_lookup_middle.
      + rewrite length_app in Hfew. simpl in Hfew. lia. }
  pose proof (chain_from_middle _ _ _ _ _ _ Hchain) as Hnext.
  set (h' := deleteNode (set_next (heap l) a (get_next (heap l) b)) b).
  pose proof (chain_from_bypass _ a b post pre _ Hchain Hnodup Halt)
    as Hchain'.
  assert (Hb_out : b ∉ pre ++ a :: post).
  { apply NoDup_app in Hnodup as (_ & Hsep & Hnd_rest).
    apply NoDup_cons in Hnd_rest as [Ha_rest Hnd_rest].
    apply NoDup_cons in Hnd_rest as [Hb_post _].
    apply not_elem_of_cons in Ha_rest as [Hab _].
    intros [Hin|[->|Hin]%elem_of_cons]%elem_of_app; [|done|done].
    apply (Hsep b Hin). right. by left. }
  assert (Hvalues' :
    get_value h' <$> pre ++ a :: post = Some <$> ws1 ++ x :: ws2).
  { unfold h'. rewrite values_deleteNode_other, values_set_next by done.
    rewrite !fmap_app, !fmap_cons. by rewrite <- Hpre, <- Ha, <- Hpost. }
  exists (mkList h' (head l) (tail l) (size l - 1)).
  split_and!.
  - unfold removeAt. rewrite Hnode. simpl. by rewrite Hnext.
  - done.
  - intros fuel Hfuel. unfold toArray. simpl.
    apply chain_from_values in Hchain'. fold h' in Hchain'.
    rewrite Hvalues' in Hchain'.
    rewrite (toArray_loop_chain _ _ _ Hchain'); [done|].
    rewrite length_fmap, length_app. simpl. lia.
  - intros Hws2. exists (pre ++ a :: post).
    assert (Hpost_ne : post <> []) by (by destruct post, ws2).
    split; simpl.
    + exact Hchain'.
    + apply NoDup_app in Hnodup as (Hnd_pre & Hsep & Hnd_rest).
      apply NoDup_cons in Hnd_rest as [Ha_rest Hnd_rest].
      apply NoDup_cons in Hnd_rest as [_ Hnd_post].
      apply not_elem_of_cons in Ha_rest as [_ Ha_post].
      apply NoDup_app. split_and!; [done| |by apply NoDup_cons].
      intros c Hc [->|Hin]%elem_of_cons.
      * apply (Hsep a Hc). by left.
      * apply (Hsep c Hc). right. by right.
    + unfold h'. rewrite length_deleteNode, length_set_next.
      apply Forall_app in Hclosed as [Hcl_pre [Hcl_a [_ Hcl_post]%Forall_cons]%Forall_cons].
      apply Forall_app. split; [done|]. by apply Forall_cons.
    + exact Hvalues'.
    + rewrite Htail. by apply last_after_middle.
    + rewrite Hsize, !length_app. simpl. lia.
  - done.
  - intros ->. destruct post; [|done].
    assert (Hblt : (b < length (heap l))%nat).
    { rewrite Forall_app, !Forall_cons in Hclosed. apply Hclosed. }
    unfold last. simpl. rewrite Htail, last_app_cons, last_cons_cons. simpl.
    unfold h', get_value, deleteNode.
    by rewrite list_lookup_insert_eq by (by rewrite length_set_next).
Qed.

(** X16: on a list that satisfies the data model, [removeAt(1)] removes
    the value behind the first one, and [removeAt(k + 2)] removes the value
    behind position [k], that is the value at position [k + 1].  [size]
    drops by one and [tail] is not moved: the data model is kept unless the
    value removed was the last one, and then [tail] stays on the emptied
    node and [last] answers [null]. *)
Theorem removeAt_removes l addrs ws1 x y ws2 index :
  represents l addrs (ws1 ++ x :: y :: ws2) ->
  (index = 1 /\ ws1 = []) \/ index = Z.of_nat (length ws1) + 2 ->
  exists l',
    removeAt l index = Return l' /\
    size l' = size l - 1 /\
    (forall fuel, (length ws1 + length ws2 + 1 <= fuel)%nat ->
       toArray fuel l' = Some (Some <$> ws1 ++ x :: ws2)) /\
    (ws2 <> [] -> exists addrs', represents l' addrs' (ws1 ++ x :: ws2)) /\
    tail l' = tail l /\
    (ws2 = [] -> last l' = None).
Proof. apply removeAt_represents. Qed.

Lemma represents_last_next l addrs vs t :
  represents l addrs vs -> list.last addrs = Some t ->
  get_next (heap l) t = Null.
Proof.
  intros Hrep [pre ->]%last_Some.
  apply (chain_from_last_next _ _ _ _ (rep_chain _ _ _ Hrep)).
Qed.

(** X17: on a list of [n] values that satisfies the data model,
    [removeAt] throws for every index up to [0], for every index above
    [n], and for every index when [n] is at most [1]. *)
Theorem removeAt_throws l addrs vs index :
  represents l addrs vs ->
  index <= 0 \/ (length vs <= 1)%nat \/ Z.of_nat (length vs) < index ->
  removeAt l index = Throw (RemoveAtNotExist index).
Proof.
  intros Hrep Hindex.
  pose proof (represents_same_length _ _ _ Hrep) as Hlen.
  assert (Hnode : nodeAt_answer addrs (index - 1) = Null \/
                  exists t, nodeAt_answer addrs (index - 1) = Obj t /\
                            list.last addrs = Some t).
  { unfold nodeAt_answer.
    destruct (Z.ltb_spec (index - 1) 0); [by left|].
    destruct (Z.eqb_spec (index - 1) 0) as [Hone|Hmore].
    - destruct addrs as [|a [|b addrs]]; [by left|right; by exists a|].
      simpl in Hlen. lia.
    - destruct (Nat.leb_spec 2 (length addrs)); [|by left].
      destruct (decide (Z.to_nat (index - 1 - 1) = pred (length addrs)))
        as [Heq|Hne].
      + rewrite Heq, <- last_lookup.
        destruct (list.last addrs) as [t|]; [right; by exists t|by left].
      + rewrite lookup_ge_None_2 by lia. by left. }
  unfold removeAt. rewrite (nodeAt_chain _ _ _ (rep_chain _ _ _ Hrep)).
  destruct Hnode as [->|(t & -> & Hlast)]; [done|]. simpl.
  by rewrite (represents_last_next _ _ _ _ Hrep Hlast).
Qed.

(** ** Higher-order traversal *)

Lemma reduce_loop_chain {K} (h : Heap) (cb : K -> option T -> Z -> K) r vs :
  chain_values h r vs ->
  forall fuel i acc, (length vs <= fuel)%nat ->
    reduce_loop fuel h cb r i acc =
    Some (fold_left (fun acc '(i, v) => cb acc v i) (enumerate_from i vs) acc).
Proof.
  induction 1 as [r Hr|a vs _ IH]; intros fuel i acc Hfuel.
  - simpl. destruct r; try discriminate; by destruct fuel.
  - simpl in *. destruct fuel as [|fuel]; [lia|]. simpl.
    by rewrite IH by lia.
Qed.

(** X18: whenever [toArray] returns, [reduce] returns the left fold of
    the callback over the same values, each passed with its position
    counted from [0], starting from the initial value. *)
Theorem reduce_folds_in_order {K} l (cb : K -> option T -> Z -> K)
    initialValue fuel out :
  toArray fuel l = Some out ->
  reduce fuel l cb initialValue =
  Some (fold_left (fun acc '(i, v) => cb acc v i) (enumerate_from 0 out)
                  initialValue).
Proof.
  intros Harr.
  apply toArray_loop_inv in Harr as (vs & -> & Hvs & Hfuel). simpl.
  unfold reduce. by apply reduce_loop_chain.
Qed.

Lemma forEach_loop_chain {St} (h : Heap) (cb : option T -> Z -> St -> St)
    r vs :
  chain_values h r vs ->
  forall fuel i st, (length vs <= fuel)%nat ->
    forEach_loop fuel h cb r i st =
    Some (fold_left (fun st '(i, v) => cb v i st) (enumerate_from i vs) st).
Proof.
  induction 1 as [r Hr|a vs _ IH]; intros fuel i st Hfuel.
  - simpl. destruct r; try discriminate; by destruct fuel.
  - simpl in *. destruct fuel as [|fuel]; [lia|]. simpl.
    by rewrite IH by lia.
Qed.

(** X19: whenever [toArray] returns, [forEach] calls the callback once
    per value, in chain order, with positions counted from [0], and
    returns the list itself. *)
Theorem forEach_visits_in_order {St} l (cb : option T -> Z -> St -> St)
    st fuel out :
  toArray fuel l = Some out ->
  forEach fuel l cb st =
  Some (l, fold_left (fun st '(i, v) => cb v i st) (enumerate_from 0 out) st).
Proof.
  intros Harr.
  apply toArray_loop_inv in Harr as (vs & -> & Hvs & Hfuel). simpl.
  unfold forEach. by rewrite (forEach_loop_chain _ cb _ _ Hvs).
Qed.

Lemma map_loop_chain (h : Heap) (cb : option T -> Z -> T) r vs :
  chain_values h r vs ->
  forall fuel i list addrs ws,
    represents list addrs ws -> (length vs <= fuel)%nat ->
    exists l' addrs',
      map_loop fuel h cb r i list = Some l' /\
      represents l' addrs'
        (ws ++ ((fun '(i, v) => cb v i) <$> enumerate_from i vs)).
Proof.
  induction 1 as [r Hr|a vs _ IH]; intros fuel i list addrs ws Hrep Hfuel.
  - exists list, addrs. rewrite app_nil_r. split; [|done].
    destruct r; try discriminate; by destruct fuel.
  - simpl in *. destruct fuel as [|fuel]; [lia|]. simpl.
    destruct (IH fuel (i + 1) _ _ _
                (represents_addToEnd _ _ _ (cb (get_value h a) i) Hrep))
      as (l' & addrs' & Hloop & Hrep'); [lia|].
    exists l', addrs'. split; [done|]. by rewrite <- app_assoc in Hrep'.
Qed.

(** X20: whenever [toArray] returns, [map] returns a new list that
    satisfies the data model and holds, in order, the callback's result for
    each value and its position counted from [0]. *)
Theorem map_builds_mapped_list l (cb : option T -> Z -> T) fuel out :
  toArray fuel l = Some out ->
  exists l' addrs',
    map fuel l cb = Some l' /\
    represents l' addrs' ((fun '(i, v) => cb v i) <$> enumerate_from 0 out).
Proof.
  intros Harr.
  apply toArray_loop_inv in Harr as (vs & -> & Hvs & Hfuel). simpl.
  unfold map.
  apply (map_loop_chain _ cb _ _ Hvs fuel 0 empty [] []);
    [apply represents_empty|done].
Qed.

Lemma enumerate_from_lookup {A} (vs : list A) :
  forall i k,
    enumerate_from i vs !! k = (fun v => (i + Z.of_nat k, v)) <$> vs !! k.
Proof.
  induction vs as [|v vs IH]; intros i k; simpl; [done|].
  destruct k as [|k]; simpl.
  - by rewrite Z.add_0_r.
  - rewrite IH. destruct (vs !! k); simpl; [|done].
    do 2 f_equal. lia.
Qed.

(** X25: whenever [toArray] returns, [at(index)] on the list returned by
    [map] is the callback's result for the value at that position and the
    position, for every index from [0] on, and throws past the last
    value. *)
Theorem map_then_at l (cb : option T -> Z -> T) fuel out index :
  toArray fuel l = Some out -> 0 <= index ->
  exists l',
    map fuel l cb = Some l' /\
    at_ l' index =
    match out !! Z.to_nat index with
    | Some v => Return (Some (cb v index))
    | None => Throw (AtNoItem index)
    end.
Proof.
  intros Harr Hindex.
  apply toArray_loop_inv in Harr as (vs & -> & Hvs & Hfuel). simpl.
  destruct (map_loop_chain _ cb _ _ Hvs fuel 0 empty [] [] represents_empty
              Hfuel) as (l' & addrs' & Hmap & Hrep).
  exists l'. split; [done|]. simpl in Hrep.
  rewrite (at_represents _ _ _ index Hrep).
  rewrite list_lookup_fmap, enumerate_from_lookup.
  destruct (vs !! Z.to_nat index); simpl; [|done].
  do 3 f_equal. lia.
Qed.

(** ** What no sequence of calls does *)

(** X21: no sequence of constructor and mutator calls creates a cycle or
    a reference to a node that was never allocated: [head], [tail] and
    every [next] point into the store, and every chain of [next] ends. *)
Theorem no_cycle_no_dangling l :
  reachable l ->
  closed_ref (heap l) (head l) /\
  (forall t, tail l = Some t -> (t < length (heap l))%nat) /\
  (forall a, closed_ref (heap l) (get_next (heap l) a)) /\
  (forall r, finite_from (heap l) r).
Proof.
  intros Hreach. by destruct (reachable_well_formed l Hreach).
Qed.

Lemma clear_loop_keeps_emptied fuel (h h' : Heap) r a :
  h !! a = Some (mkNode Undefined None) ->
  clear_loop fuel h r = Some h' ->
  h' !! a = Some (mkNode Undefined None).
Proof.
  revert h r. induction fuel as [|fuel IH]; intros h r Hdead;
    destruct r as [| |temp]; simpl; try done; try (by intros [= <-]).
  apply IH. unfold deleteNode. rewrite list_lookup_insert.
  case_decide; [done|exact Hdead].
Qed.

Lemma clear_loop_empties_first fuel (h h' : Heap) a :
  (a < length h)%nat -> clear_loop fuel h (Obj a) = Some h' ->
  h' !! a = Some (mkNode Undefined None).
Proof.
  intros Ha. destruct fuel as [|fuel]; simpl; [done|].
  apply clear_loop_keeps_emptied. unfold deleteNode.
  by rewrite list_lookup_insert_eq.
Qed.

(** X22: on every list built by constructor and mutator calls [clear]
    returns; it sets [size] to [0] and leaves [head] and [tail] as they
    were, so that on a list whose [head] was a node a following [toArray]
    returns one [undefined]. *)
Theorem clear_on_built_list l :
  reachable l ->
  exists n, forall fuel, (n <= fuel)%nat ->
    exists l',
      clear fuel l = Some l' /\
      size l' = 0 /\ head l' = head l /\ tail l' = tail l /\
      forall fuel', (1 <= fuel')%nat ->
        toArray fuel' l' = Some (if is_truthy (head l) then [None] else []).
Proof.
  intros Hreach.
  destruct (clear_returns l Hreach) as [n Hn].
  destruct (closed_reachable l Hreach) as (_ & Hhead & _).
  exists n. intros fuel Hfuel. destruct (Hn fuel Hfuel) as [l' Hclear].
  exists l'. split; [done|].
  unfold clear in Hclear.
  destruct (clear_loop fuel (heap l) (head l)) as [h'|] eqn:Hloop; [|done].
  injection Hclear as <-. simpl. split_and!; try done.
  intros fuel' Hfuel'. unfold toArray. simpl.
  destruct fuel' as [|fuel']; [lia|].
  destruct (head l) as [| |a]; simpl; [done|done|].
  apply clear_loop_empties_first in Hloop; [|done].
  unfold get_next, get_value. rewrite Hloop. simpl. by destruct fuel'.
Qed.

End Generic.

Arguments Node T : clear implicits.
Arguments LinkedList T : clear implicits.
Arguments ctor_arg T : clear implicits.
Arguments insertion T : clear implicits.

(** * The class at work on lists of numbers *)

(** C1: [shift] does not advance [head] to the successor.  After [1] is put
    in front of [[2, 3]], [shift] returns [1] but sets [head] and [tail] to
    [null]: the contents [[2, 3]] are lost while [size] says [2].  On a
    single node it empties the chain but leaves [tail] on the removed
    node. *)
Theorem shift_drops_the_successors :
  let l0 := constructor (Array [2; 3]) in
  let l := unshift l0 1 in
  toArray 3 l0 = Some [Some 2; Some 3] /\
  toArray 3 l = Some [Some 1; Some 2; Some 3] /\
  (exists l',
     shift l = Return (Some 1, l') /\
     head l' = Null /\ tail l' = None /\ size l' = 2 /\
     toArray 3 l' = Some []) /\
  (exists l',
     shift (constructor (Array [1])) = Return (Some 1, l') /\
     head l' = Null /\ tail l' = Some 0%nat /\ size l' = 0).
Proof. split_and!; [done|done|eexists; by split_and!..]. Qed.

(** C2: on [[1, 2, 3]], obtained by [push(3)] on [[1, 2]], [pop] returns
    [3] but cuts the chain after the node at index [0] instead of the node
    at index [count - 2 = 1]: the contents become [[1]] while [size] says
    [2]. *)
Theorem pop_cuts_one_node_too_early :
  let l := push (constructor (Array [1; 2])) 3 in
  toArray 3 l = Some [Some 1; Some 2; Some 3] /\
  nodeAt l (size l - 2) = Return (Obj 0%nat) /\
  exists l',
    pop l = Return (Some 3, l') /\
    tail l' = Some 0%nat /\ size l' = 2 /\ toArray 3 l' = Some [Some 1].
Proof. repeat split. eexists. repeat split. Qed.

(** C3: on [[0, 1, 2]], [addAfter(1, 99)] links the new node after the
    node at index [0]: the result is [[0, 99, 1, 2]], not [[0, 1, 99, 2]]. *)
Theorem addAfter_anchors_one_node_too_early :
  nodeAt (constructor (Array [0; 1; 2])) 1 = Return (Obj 0%nat) /\
  exists l',
    addAfter (constructor (Array [0; 1; 2])) 1 99 = Return l' /\
    size l' = 4 /\
    toArray 4 l' = Some [Some 0; Some 99; Some 1; Some 2].
Proof. split; [reflexivity|]. eexists. repeat split. Qed.

(** C4: the invariants of the data model hold after construction but do not
    survive [shift] (on one node: [head] is [null], [tail] is not),
    [removeAt] (of the last node: [tail] stays on the removed node) and
    [clear] ([size] is [0], [head] and [tail] are not [null]). *)
Theorem invariant_not_preserved :
  (invariant (constructor (Array [1])) /\
   exists v l', shift (constructor (Array [1])) = Return (v, l') /\ ~ invariant l') /\
  (invariant (constructor (Array [1; 2])) /\
   exists l', removeAt (constructor (Array [1; 2])) 1 = Return l' /\ ~ invariant l') /\
  (invariant (constructor (Array [1])) /\
   exists l', clear 1 (constructor (Array [1])) = Some l' /\ ~ invariant l').
Proof.
  assert (Hone : invariant (constructor (Array [1]))).
  { split_and!; try done. intros _. by exists 0%nat. }
  assert (Htwo : invariant (constructor (Array [1; 2]))).
  { split_and!; try done. intros _. by exists 1%nat. }
  split_and!; try done.
  - do 2 eexists. split; [reflexivity|].
    intros (_ & [Hnull _] & _). simpl in Hnull. by specialize (Hnull eq_refl).
  - eexists. split; [reflexivity|].
    intros (_ & _ & Hlast). simpl in Hlast.
    destruct Hlast as (a & Hsteps & Htail & _); [lia|]. congruence.
  - eexists. split; [reflexivity|].
    intros ([Hzero _] & _). simpl in Hzero. by specialize (Hzero eq_refl).
Qed.

(** C5: [removeAt(0)] throws instead of advancing [head]; removing the last
    node leaves [tail] on the removed node; and from index [2] on the node
    removed is the one before the index. *)
Theorem removeAt_misses_first_and_last :
  removeAt (constructor (Array [0; 1; 99; 2])) 0 = Throw (RemoveAtNotExist 0) /\
  (exists l',
     removeAt (constructor (Array [0; 1])) 1 = Return l' /\
     toArray 2 l' = Some [Some 0] /\
     head l' = Obj 0%nat /\ tail l' = Some 1%nat /\ last l' = None) /\
  (exists l',
     removeAt (constructor (Array [0; 1; 2])) 2 = Return l' /\
     toArray 3 l' = Some [Some 0; Some 2]).
Proof. split_and!; [reflexivity|eexists; by split_and!..]. Qed.

(** C6: the indexed operations do not fail exactly outside [[0, count)]:
    [at(-1)] returns the first value, [addAfter] and [removeAt] accept the
    index [count], and [removeAt(0)] throws on a non-empty list. *)
Theorem index_checks_are_off :
  at_ (constructor (Array [7])) (-1) = Return (Some 7) /\
  threw (addAfter (constructor (Array [0; 1])) 2 9) = false /\
  threw (removeAt (constructor (Array [0; 1])) 2) = false /\
  removeAt (constructor (Array [0; 1])) 0 = Throw (RemoveAtNotExist 0).
Proof. by split_and!. Qed.

(** C7: [clear] deletes the fields of every node and sets [size] to [0],
    but leaves [head] and [tail] on the emptied nodes: a following
    [toArray] returns [[undefined]] and iteration yields [undefined]. *)
Theorem clear_keeps_head_and_tail :
  exists l',
    clear 2 (constructor (Array [1; 2])) = Some l' /\
    size l' = 0 /\ head l' = Obj 0%nat /\ tail l' = Some 1%nat /\
    toArray 2 l' = Some [None] /\ iterate 2 l' = Some [None].
Proof. eexists. by split_and!. Qed.

(** C9: constructing from the single value [0] gives the empty list: the
    constructor takes every falsy value for a missing argument. *)
Theorem constructor_ignores_falsy_value :
  constructor (Value 0) = empty /\
  size (constructor (Value 0)) = 0 /\
  head (constructor (Value 0)) = Null /\
  constructor (Array [0]) = mkList [mkNode Null (Some 0)] (Obj 0%nat) (Some 0%nat) 1.
Proof. by split_and!. Qed.



(** Iterating over [[1, 2]] after [push(3)]. *)
Lemma iterator_agrees_with_toArray_witness :
  exists vs,
    chain_values (heap (push (constructor (Array [1; 2])) 3))
                 (head (push (constructor (Array [1; 2])) 3)) vs /\
    forall fuel, (length vs < fuel)%nat ->
      toArray fuel (push (constructor (Array [1; 2])) 3) = Some vs /\
      iterate fuel (push (constructor (Array [1; 2])) 3) = Some vs.
Proof.
  apply (iterator_agrees_with_toArray (push (constructor (Array [1; 2])) 3)).
  apply reach_push. apply reach_constructor.
Defined.

(** * The further properties at work on lists of numbers *)

Ltac represents_by_computation :=
  split; simpl;
  [ by repeat split | compute_done | compute_done
  | reflexivity | reflexivity | reflexivity ].

Lemma represents_nothing :
  represents (constructor (@NoArg Z)) [] [].
Proof. represents_by_computation. Qed.

Lemma represents_one :
  represents (constructor (Array [7])) [0%nat] [7].
Proof. represents_by_computation. Qed.

Lemma represents_two :
  represents (constructor (Array [7; 8])) [0; 1]%nat [7; 8].
Proof. represents_by_computation. Qed.

Lemma represents_four :
  represents (constructor (Array [1; 2; 3; 4])) [0; 1; 2; 3]%nat [1; 2; 3; 4].
Proof. represents_by_computation. Qed.

Lemma data_model_observations_witness :
  toArray 5 (constructor (Array [1; 2; 3; 4])) = Some (Some <$> [1; 2; 3; 4]) /\
  iterate 5 (constructor (Array [1; 2; 3; 4])) = Some (Some <$> [1; 2; 3; 4]) /\
  get_length (constructor (Array [1; 2; 3; 4])) = Z.of_nat (length [1; 2; 3; 4]) /\
  invariant (constructor (Array [1; 2; 3; 4])).
Proof.
  apply (data_model_observations _ [0; 1; 2; 3]%nat [1; 2; 3; 4] 5).
  - exact represents_four.
  - simpl. lia.
Defined.

Lemma queries_on_data_model_witness :
  fist (constructor (Array [1; 2; 3; 4])) = list.head [1; 2; 3; 4] /\
  last (constructor (Array [1; 2; 3; 4])) = list.last [1; 2; 3; 4] /\
  (isEmpy (constructor (Array [1; 2; 3; 4])) = true <-> [1; 2; 3; 4] = []).
Proof.
  apply (queries_on_data_model _ [0; 1; 2; 3]%nat [1; 2; 3; 4]).
  exact represents_four.
Defined.

Lemma push_appends_witness :
  exists addrs',
    represents (push (constructor (Array [7; 8])) 9) addrs' ([7; 8] ++ [9]).
Proof.
  apply (push_appends _ [0; 1]%nat [7; 8] 9). exact represents_two.
Defined.

Lemma unshift_prepends_witness :
  exists addrs',
    represents (unshift (constructor (Array [7; 8])) 6) addrs' (6 :: [7; 8]).
Proof.
  apply (unshift_prepends _ [0; 1]%nat [7; 8] 6). exact represents_two.
Defined.

Lemma pop_short_list_witness :
  exists l' addrs',
    pop (constructor (Array [7; 8])) = Return (Some 8, l') /\
    represents l' addrs' [7].
Proof.
  apply (pop_short_list _ [0; 1]%nat [7] 8).
  - exact represents_two.
  - simpl. lia.
Defined.

Lemma pop_long_list_witness :
  exists l',
    pop (constructor (Array [1; 2; 3; 4])) = Return (Some 4, l') /\
    size l' = size (constructor (Array [1; 2; 3; 4])) - 1 /\
    forall fuel, (1 < fuel)%nat ->
      toArray fuel l' = Some (Some <$> [1] ++ [2]).
Proof.
  apply (pop_long_list _ [0; 1; 2; 3]%nat [1] 2 3 4). exact represents_four.
Defined.


Lemma at_on_data_model_witness :
  at_ (constructor (Array [1; 2; 3; 4])) 2 =
  match [1; 2; 3; 4] !! Z.to_nat 2 with
  | Some v => Return (Some v)
  | None => Throw (AtNoItem 2)
  end.
Proof.
  apply (at_on_data_model _ [0; 1; 2; 3]%nat [1; 2; 3; 4] 2).
  exact represents_four.
Defined.

Lemma nodeAt_on_data_model_witness :
  nodeAt (constructor (Array [1; 2; 3; 4])) 3 =
  Return (nodeAt_answer [0; 1; 2; 3]%nat 3).
Proof.
  apply (nodeAt_on_data_model _ [0; 1; 2; 3]%nat [1; 2; 3; 4] 3).
  exact represents_four.
Defined.

Lemma empty_list_throws_witness :
  pop (constructor (@NoArg Z)) = Throw PopEmpty /\
  shift (constructor (@NoArg Z)) = Throw ShiftEmpty /\
  at_ (constructor (@NoArg Z)) 0 = Throw (AtNoItem 0) /\
  addAfter (constructor (@NoArg Z)) 0 5 = Throw (AddAfterNotExist 0) /\
  removeAt (constructor (@NoArg Z)) 0 = Throw (RemoveAtNotExist 0).
Proof.
  apply (empty_list_throws _ [] 0 5). exact represents_nothing.
Defined.

Lemma addAfter_inserts_witness :
  exists l',
    addAfter (constructor (Array [7])) 0 9 = Return l' /\
    size l' = size (constructor (Array [7])) + 1 /\
    (forall fuel, (2 <= fuel)%nat ->
       toArray fuel l' = Some (Some <$> [] ++ 7 :: 9 :: [])) /\
    (@nil Z <> [] ->
     exists addrs', represents l' addrs' ([] ++ 7 :: 9 :: [])) /\
    tail l' = tail (constructor (Array [7])) /\
    (@nil Z = [] -> last l' = Some 7).
Proof.
  apply (addAfter_inserts _ [0%nat] [] 7 [] 0 9).
  - exact represents_one.
  - left. split; reflexivity.
Defined.

Lemma addAfter_throws_witness :
  addAfter (constructor (Array [7; 8])) 3 9 = Throw (AddAfterNotExist 3).
Proof.
  apply (addAfter_throws _ [0; 1]%nat [7; 8] 3 9).
  - exact represents_two.
  - right. left. simpl. lia.
Defined.

Lemma removeAt_removes_witness :
  exists l',
    removeAt (constructor (Array [7; 8])) 1 = Return l' /\
    size l' = size (constructor (Array [7; 8])) - 1 /\
    (forall fuel, (1 <= fuel)%nat ->
       toArray fuel l' = Some (Some <$> [] ++ 7 :: [])) /\
    (@nil Z <> [] -> exists addrs', represents l' addrs' ([] ++ 7 :: [])) /\
    tail l' = tail (constructor (Array [7; 8])) /\
    (@nil Z = [] -> last l' = None).
Proof.
  apply (removeAt_removes _ [0; 1]%nat [] 7 8 [] 1).
  - exact represents_two.
  - left. split; reflexivity.
Defined.

Lemma removeAt_throws_witness :
  removeAt (constructor (Array [7; 8])) 3 = Throw (RemoveAtNotExist 3).
Proof.
  apply (removeAt_throws _ [0; 1]%nat [7; 8] 3).
  - exact represents_two.
  - right. right. simpl. lia.
Defined.

Lemma reduce_folds_in_order_witness :
  reduce 3 (constructor (Array [7; 8]))
         (fun acc v i => acc + default 0 v * (i + 1)) 100 =
  Some (fold_left (fun acc '(i, v) => acc + default 0 v * (i + 1))
                  (enumerate_from 0 [Some 7; Some 8]) 100).
Proof.
  apply (reduce_folds_in_order (constructor (Array [7; 8]))
           (fun acc v i => acc + default 0 v * (i + 1)) 100 3%nat
           [Some 7; Some 8]).
  reflexivity.
Defined.

Lemma forEach_visits_in_order_witness :
  forEach 3 (constructor (Array [7; 8]))
          (fun v i (seen : list (option Z * Z)) => seen ++ [(v, i)]) [] =
  Some (constructor (Array [7; 8]),
        fold_left (fun seen '(i, v) => seen ++ [(v, i)])
                  (enumerate_from 0 [Some 7; Some 8]) []).
Proof.
  apply (forEach_visits_in_order (constructor (Array [7; 8]))
           (fun v i (seen : list (option Z * Z)) => seen ++ [(v, i)]) []
           3%nat [Some 7; Some 8]).
  reflexivity.
Defined.

Lemma map_builds_mapped_list_witness :
  exists l' addrs',
    map 3 (constructor (Array [7; 8])) (fun v i => default 0 v * 10 + i)
      = Some l' /\
    represents l' addrs'
      ((fun '(i, v) => default 0 v * 10 + i) <$>
       enumerate_from 0 [Some 7; Some 8]).
Proof.
  apply (map_builds_mapped_list (constructor (Array [7; 8]))
           (fun v i => default 0 v * 10 + i) 3%nat [Some 7; Some 8]).
  reflexivity.
Defined.

Lemma no_cycle_no_dangling_witness :
  closed_ref (heap (push (constructor (Array [7; 8])) 9))
             (head (push (constructor (Array [7; 8])) 9)) /\
  (forall t, tail (push (constructor (Array [7; 8])) 9) = Some t ->
             Nat.lt t (length (heap (push (constructor (Array [7; 8])) 9)))) /\
  (forall a, closed_ref (heap (push (constructor (Array [7; 8])) 9))
               (get_next (heap (push (constructor (Array [7; 8])) 9)) a)) /\
  (forall r, finite_from (heap (push (constructor (Array [7; 8])) 9)) r).
Proof.
  apply (no_cycle_no_dangling (push (constructor (Array [7; 8])) 9)).
  apply reach_push, reach_constructor.
Defined.

Lemma clear_on_built_list_witness :
  exists n, forall fuel, (n <= fuel)%nat ->
    exists l',
      clear fuel (constructor (Array [7; 8])) = Some l' /\
      size l' = 0 /\
      head l' = head (constructor (Array [7; 8])) /\
      tail l' = tail (constructor (Array [7; 8])) /\
      forall fuel', (1 <= fuel')%nat ->
        toArray fuel' l' =
        Some (if is_truthy (head (constructor (Array [7; 8])))
              then [None] else []).
Proof.
  apply (clear_on_built_list (constructor (Array [7; 8]))).
  apply reach_constructor.
Defined.

Lemma push_then_pop_short_witness :
  exists l' addrs',
    pop (push (constructor (Array [7])) 9) = Return (Some 9, l') /\
    represents l' addrs' [7].
Proof.
  apply (push_then_pop_short _ [0%nat] [7] 9).
  - exact represents_one.
  - simpl. lia.
Defined.

Lemma unshift_then_shift_witness :
  exists l',
    shift (unshift (constructor (Array [7; 8])) 6) = Return (Some 6, l') /\
    size l' = size (constructor (Array [7; 8])) /\
    forall fuel, toArray fuel l' = Some [].
Proof.
  apply (unshift_then_shift _ [0; 1]%nat [7; 8] 6). exact represents_two.
Defined.

Lemma map_then_at_witness :
  exists l',
    map 3 (constructor (Array [7; 8])) (fun v i => default 0 v * 10 + i)
      = Some l' /\
    at_ l' 1 =
    match [Some 7; Some 8] !! Z.to_nat 1 with
    | Some v => Return (Some (default 0 v * 10 + 1))
    | None => Throw (AtNoItem 1)
    end.
Proof.
  apply (map_then_at (constructor (Array [7; 8]))
           (fun v i => default 0 v * 10 + i) 3%nat [Some 7; Some 8] 1).
  - reflexivity.
  - lia.
Defined.

End DS.
